(** * Daily warehouse-work metrics: a shallow embedding of [app.py]

    The analysed program reads a table of warehouse work lines, derives
    per-row columns ([add_computed_columns]), filters the rows, and sums
    three metrics (Prijem, Expedice, Tonovani) per day, user and item;
    transfers are only counted.  This file embeds that pipeline and proves
    properties of it.

    Modelling conventions.
    - A Python [str] is a list of Unicode code points ([str]); literals are
      written as UTF-8 text and decoded by [utf8].
    - A table cell is missing, a number or a text ([cell]).  The 64-bit
      floats of the program are modelled by exact rationals ([Q]); rounding,
      infinities and the range limits of the library timestamps are outside
      the model.
    - The tables of the Unicode Character Database used by [str.normalize]
      and by the [\d] class of regular expressions are not part of the
      program: they are the fields of the class [UCD].  Number rendering,
      number parsing and the case-insensitive search of the item filter are
      the fields of the class [Conv].  [czech_ucd] and [plain_conv] are
      concrete instances used to run the definitions.
    - Code that can raise returns a [result]. *)

From Stdlib Require Import List String Ascii NArith ZArith QArith Qround Bool Lia.
From Stdlib Require Import DecimalString.
Import ListNotations.

Set Implicit Arguments.

(* ------------------------------------------------------------------ *)
(** ** Python strings *)

Definition codepoint := N.
Definition str := list codepoint.

Fixpoint bytes_of (s : string) : list N :=
  match s with
  | EmptyString => []
  | String a t => N_of_ascii a :: bytes_of t
  end.

(** Decoder for the UTF-8 text of a literal (well-formed input only). *)
Fixpoint utf8_decode (bs : list N) : str :=
  match bs with
  | [] => []
  | b0 :: t =>
      if (b0 <? 0x80)%N then b0 :: utf8_decode t
      else if (b0 <? 0xE0)%N then
        match t with
        | b1 :: t1 => ((b0 mod 32) * 64 + b1 mod 64)%N :: utf8_decode t1
        | _ => []
        end
      else if (b0 <? 0xF0)%N then
        match t with
        | b1 :: b2 :: t2 =>
            (((b0 mod 16) * 64 + b1 mod 64) * 64 + b2 mod 64)%N :: utf8_decode t2
        | _ => []
        end
      else
        match t with
        | b1 :: b2 :: b3 :: t3 =>
            ((((b0 mod 8) * 64 + b1 mod 64) * 64 + b2 mod 64) * 64 + b3 mod 64)%N
              :: utf8_decode t3
        | _ => []
        end
  end.

Definition utf8 (s : string) : str := utf8_decode (bytes_of s).

Fixpoint str_eqb (a b : str) : bool :=
  match a, b with
  | [], [] => true
  | x :: a', y :: b' => (x =? y)%N && str_eqb a' b'
  | _, _ => false
  end.

(** Python compares strings code point by code point. *)
Fixpoint str_compare (a b : str) : comparison :=
  match a, b with
  | [], [] => Eq
  | [], _ :: _ => Lt
  | _ :: _, [] => Gt
  | x :: a', y :: b' =>
      match (x ?= y)%N with
      | Eq => str_compare a' b'
      | c => c
      end
  end.

(** [x in xs] for a list of strings. *)
Definition str_in (x : str) (xs : list str) : bool := existsb (str_eqb x) xs.

(** *** [str.strip()]: the white space of CPython's [str] type. *)
Definition is_space (c : codepoint) : bool :=
  ((0x09 <=? c) && (c <=? 0x0D) || (0x1C <=? c) && (c <=? 0x20)
   || (c =? 0x85) || (c =? 0xA0) || (c =? 0x1680)
   || (0x2000 <=? c) && (c <=? 0x200A)
   || (c =? 0x2028) || (c =? 0x2029) || (c =? 0x202F)
   || (c =? 0x205F) || (c =? 0x3000))%N.

Fixpoint lstrip (s : str) : str :=
  match s with
  | [] => []
  | c :: t => if is_space c then lstrip t else s
  end.

Fixpoint rstrip (s : str) : str :=
  match s with
  | [] => []
  | c :: t =>
      match rstrip t with
      | [] => if is_space c then [] else [c]
      | t' => c :: t'
      end
  end.

Definition strip (s : str) : str := rstrip (lstrip s).

(** *** [str.upper()] on text that has been reduced to ASCII. *)
Definition is_ascii (c : codepoint) : bool := (c <? 128)%N.

Definition upper_char (c : codepoint) : codepoint :=
  if ((0x61 <=? c) && (c <=? 0x7A))%N then (c - 32)%N else c.

Definition upper (s : str) : str := map upper_char s.

(** *** [encode("ascii", "ignore")] followed by [decode("ascii")]. *)
Definition ascii_ignore (s : str) : str := filter is_ascii s.

(* ------------------------------------------------------------------ *)
(** ** Unicode normalisation (NFKD) *)

(** The Unicode Character Database: full compatibility decomposition of a
    code point, canonical combining class, and the decimal-digit property
    that the regular-expression class [\d] tests. *)
Class UCD := {
  decomposition : codepoint -> str;
  combining_class : codepoint -> N;
  is_decimal : codepoint -> bool
}.

(** What the model needs to know about the database: ASCII characters
    decompose to themselves and are starters. *)
Definition ascii_stable (U : UCD) : Prop :=
  forall c, is_ascii c = true ->
            decomposition c = [c] /\ combining_class c = 0%N.

Section Normalisation.
Context {U : UCD}.

(** Canonical ordering: a combining mark moves left over marks of a
    strictly greater class, never over a starter. *)
Fixpoint insert_mark (c : codepoint) (s : str) : str :=
  match s with
  | [] => [c]
  | d :: t =>
      if ((0 <? combining_class d) && (combining_class d <? combining_class c))%N
      then d :: insert_mark c t
      else c :: s
  end.

Fixpoint canonical_order (s : str) : str :=
  match s with
  | [] => []
  | c :: t =>
      if (combining_class c =? 0)%N then c :: canonical_order t
      else insert_mark c (canonical_order t)
  end.

Definition nfkd (s : str) : str := canonical_order (flat_map decomposition s).
End Normalisation.

(* ------------------------------------------------------------------ *)
(** ** Cells, conversions and errors *)

(** A cell of the loaded table: missing (NaN / None / NA), a number, a text. *)
Inductive cell :=
| NA
| Num (q : Q)
| Text (s : str).

Definition Series := list cell.

(** Conversions done inside the library, outside the program: how
    [astype("string")] renders a number, which texts [pd.to_numeric]
    accepts, and the case-insensitive search of [str.contains]. *)
Class Conv := {
  number_repr : Q -> str;
  parse_number : str -> option Q;
  contains_ci : str -> str -> bool
}.

(** The two exceptions of the enrichment step, both [ValueError]s in the
    program: the one [ensure_columns] raises, carrying the list it prints,
    and the one [pd.to_datetime] raises when an [origin] is given and the
    values are not numeric. *)
Inductive exn :=
| MissingColumns (missing : list str)
| OriginNeedsNumeric.

Inductive result (A : Type) :=
| Ok (a : A)
| Raise (e : exn).
Arguments Ok {A} a.
Arguments Raise {A} e.

Definition bind {A B} (r : result A) (k : A -> result B) : result B :=
  match r with
  | Ok a => k a
  | Raise e => Raise e
  end.

Notation "x <- r ;; k" := (bind r (fun x => k))
  (at level 61, r at next level, right associativity).

Definition raises {A} (r : result A) : bool :=
  match r with Ok _ => false | Raise _ => true end.

Section Conversions.
Context {C : Conv}.

(** [astype("string")]: a missing value stays missing. *)
Definition astype_string (c : cell) : option str :=
  match c with
  | NA => None
  | Num q => Some (number_repr q)
  | Text s => Some s
  end.

(** [fillna] with a scalar. *)
Definition fillna {A} (d : A) (o : option A) : A :=
  match o with Some a => a | None => d end.

(** [s.astype("string").fillna("").str.strip()] on one value. *)
Definition clean_text (c : cell) : str := strip (fillna [] (astype_string c)).

(** [pd.to_numeric(..., errors="coerce")] on one value. *)
Definition to_numeric (c : cell) : option Q :=
  match c with
  | NA => None
  | Num q => Some q
  | Text s => parse_number s
  end.
End Conversions.

(* ------------------------------------------------------------------ *)
(** ** Calendar days *)

(** A [datetime.date], as its day number (day 0 is 1970-01-01). *)
Definition date := Z.

Local Open Scope Z_scope.

Definition days_from_civil (y m d : Z) : date :=
  let y' := if m <=? 2 then y - 1 else y in
  let era := y' / 400 in
  let yoe := y' - era * 400 in
  let mp := if 2 <? m then m - 3 else m + 9 in
  let doy := (153 * mp + 2) / 5 + d - 1 in
  let doe := yoe * 365 + yoe / 4 - yoe / 100 + doy in
  era * 146097 + doe - 719468.

Definition civil_from_days (z : date) : Z * Z * Z :=
  let z' := z + 719468 in
  let era := z' / 146097 in
  let doe := z' - era * 146097 in
  let yoe := (doe - doe / 1460 + doe / 36524 - doe / 146096) / 365 in
  let doy := doe - (365 * yoe + yoe / 4 - yoe / 100) in
  let mp := (5 * doy + 2) / 153 in
  let d := doy - (153 * mp + 2) / 5 + 1 in
  let m := if mp <? 10 then mp + 3 else mp - 9 in
  let y := yoe + era * 400 in
  (if m <=? 2 then y + 1 else y, m, d).

Definition digit (n : Z) : codepoint := Z.to_N (48 + n mod 10).

(** [str(d)] of a date, and of the missing date. *)
Definition date_str (d : option date) : str :=
  match d with
  | None => utf8 "NaT"
  | Some z =>
      let '(y, m, dd) := civil_from_days z in
      [digit (y / 1000); digit (y / 100); digit (y / 10); digit y]
        ++ utf8 "-" ++ [digit (m / 10); digit m]
        ++ utf8 "-" ++ [digit (dd / 10); digit dd]
  end.

(** [origin="1899-12-30"]. *)
Definition excel_origin : date := days_from_civil 1899 12 30.

(** One value of [pd.to_datetime(s, unit="D", origin=..., errors="coerce")]
    followed by [.dt.floor("D").dt.date]: the day [floor q] days after the
    origin; a missing number gives the missing date (NaT). *)
Definition to_excel_date (c : cell) : option date :=
  match c with
  | Num q => Some (excel_origin + Qfloor q)
  | _ => None
  end.

Definition is_text (c : cell) : bool :=
  match c with Text _ => true | _ => false end.

(** [to_excel_date_series].  With an [origin] other than the Unix epoch,
    [pd.to_datetime] first checks that its argument is numeric and raises
    ValueError (... is not compatible with origin ...; it must be numeric
    with a unit specified) otherwise; [errors="coerce"] is consulted only
    afterwards.  A column that holds a text is read with dtype object and
    fails that check; a column of numbers and missing values passes. *)
Definition to_excel_date_series (s : Series) : result (list (option date)) :=
  if existsb is_text s then Raise OriginNeedsNumeric
  else Ok (map to_excel_date s).

Local Close Scope Z_scope.

(* ------------------------------------------------------------------ *)
(** ** Regular expressions ([re.fullmatch]) *)

Inductive regex :=
| Void
| Eps
| Class (p : codepoint -> bool)
| Cat (r1 r2 : regex)
| Alt (r1 r2 : regex)
| Star (r : regex).

Definition Plus (r : regex) : regex := Cat r (Star r).

Fixpoint nullable (r : regex) : bool :=
  match r with
  | Void => false
  | Eps => true
  | Class _ => false
  | Cat r1 r2 => nullable r1 && nullable r2
  | Alt r1 r2 => nullable r1 || nullable r2
  | Star _ => true
  end.

Fixpoint deriv (c : codepoint) (r : regex) : regex :=
  match r with
  | Void => Void
  | Eps => Void
  | Class p => if p c then Eps else Void
  | Cat r1 r2 =>
      if nullable r1 then Alt (Cat (deriv c r1) r2) (deriv c r2)
      else Cat (deriv c r1) r2
  | Alt r1 r2 => Alt (deriv c r1) (deriv c r2)
  | Star r1 => Cat (deriv c r1) (Star r1)
  end.

Fixpoint fullmatch (r : regex) (s : str) : bool :=
  match s with
  | [] => nullable r
  | c :: t => fullmatch (deriv c r) t
  end.

(** The language of a regular expression. *)
Inductive matches : regex -> str -> Prop :=
| m_eps : matches Eps []
| m_class p c : p c = true -> matches (Class p) [c]
| m_cat r1 r2 s1 s2 : matches r1 s1 -> matches r2 s2 -> matches (Cat r1 r2) (s1 ++ s2)
| m_alt_l r1 r2 s : matches r1 s -> matches (Alt r1 r2) s
| m_alt_r r1 r2 s : matches r2 s -> matches (Alt r1 r2) s
| m_star_nil r : matches (Star r) []
| m_star_cons r s1 s2 :
    matches r s1 -> matches (Star r) s2 -> matches (Star r) (s1 ++ s2).

(** The class [[A-ZÁČĎÉĚÍŇÓŘŠŤÚŮÝŽ]]. *)
Definition addr_letter (c : codepoint) : bool :=
  ((0x41 <=? c) && (c <=? 0x5A))%N
  || existsb (N.eqb c) (utf8 "ÁČĎÉĚÍŇÓŘŠŤÚŮÝŽ").

Definition dash : regex := Class (N.eqb 0x2D).

(** [addr_regex = r"^[A-ZÁČĎÉĚÍŇÓŘŠŤÚŮÝŽ]-\d+-\d+-\d+$"]; the anchors are
    implied by [fullmatch]. *)
Definition addr_regex {U : UCD} : regex :=
  Cat (Class addr_letter)
   (Cat dash (Cat (Plus (Class is_decimal))
    (Cat dash (Cat (Plus (Class is_decimal))
     (Cat dash (Plus (Class is_decimal))))))).

(* ------------------------------------------------------------------ *)
(** ** The loaded table and its enrichment *)

(** A [pd.DataFrame] as loaded: column labels and the rows of cells. *)
Record DataFrame := {
  columns : list str;
  data : list (list cell)
}.

Fixpoint column_index (c : str) (cols : list str) : nat :=
  match cols with
  | [] => 0
  | h :: t => if str_eqb c h then 0 else S (column_index c t)
  end.

(** [df[c]] for a label [c] of [df.columns]. *)
Definition getcol (df : DataFrame) (c : str) : Series :=
  map (fun r => nth (column_index c (columns df)) r NA) (data df).

Fixpoint map2 {A B C} (f : A -> B -> C) (l1 : list A) (l2 : list B) : list C :=
  match l1, l2 with
  | a :: t1, b :: t2 => f a b :: map2 f t1 t2
  | _, _ => []
  end.

(** [ensure_columns]: every required label is looked up before failing. *)
Definition ensure_columns (df : DataFrame) (required : list str) : result unit :=
  let missing := filter (fun c => negb (str_in c (columns df))) required in
  match missing with
  | [] => Ok tt
  | _ :: _ => Raise (MissingColumns missing)
  end.

Definition required_cols : list str :=
  [utf8 "Typ práce"; utf8 "ID pracovní třídy"; utf8 "Množství práce";
   utf8 "Jednotka"; utf8 "Uzavřená práce"; utf8 "ID uživatele";
   utf8 "Č. položky"; utf8 "Místo"].

(** A row of the enriched table (the derived columns). *)
Record Row := {
  WorkType_n : str;
  WorkClass_n : str;
  Unit_n : str;
  User : str;
  SKU : str;
  Location : str;
  Den : option date;
  Qty : Q;
  EffectiveQty_STis1 : Q;
  SkpQty : Q;
  is_prijem : bool;
  is_expedice : bool;
  is_tonovani : bool;
  is_transfer : bool;
  LocationBucket : str
}.

Definition isna {A} (o : option A) : bool :=
  match o with None => true | Some _ => false end.

(** The four category masks, on normalised work type and work class. *)
Definition prijem_mask (wt wc : str) : bool :=
  str_eqb wt (utf8 "VLOZIT") && str_eqb wc (utf8 "NAKUP").
Definition expedice_mask (wt wc : str) : bool :=
  str_eqb wt (utf8 "VYDAT") && (str_eqb wc (utf8 "PRODEJ") || str_eqb wc []).
Definition tonovani_mask (wt wc : str) : bool :=
  str_eqb wt (utf8 "VLOZIT") && str_in wc [utf8 "VYROBA"; utf8 "PO_POZN"].
Definition transfer_mask (wt wc : str) : bool :=
  str_eqb wt (utf8 "VLOZIT") && str_eqb wc [].

(** [np.where(Unit_n == "ST", 1.0, Qty)]. *)
Definition st_is_1 (unit : str) (qty : Q) : Q :=
  if str_eqb unit (utf8 "ST") then 1 else qty.

(** [np.where(Unit_n == "PAL", Qty * 24.0, Qty)]. *)
Definition pal_times_24 (unit : str) (qty : Q) : Q :=
  if str_eqb unit (utf8 "PAL") then qty * 24 else qty.

Section Enrichment.
Context {U : UCD} {C : Conv}.

(** [normalize_str_series], value by value: missing becomes empty, trim,
    NFKD, drop what is not ASCII, upper case. *)
Definition normalize_str (c : cell) : str :=
  upper (ascii_ignore (nfkd (clean_text c))).

Definition normalize_str_series (s : Series) : list str :=
  map normalize_str s.

(** [np.where(Location.str.fullmatch(addr_regex, na=False), label, Location)]. *)
Definition location_bucket (loc : str) : str :=
  if fullmatch addr_regex loc then utf8 "Adresy (kódy)" else loc.

Definition add_computed_columns (df_raw : DataFrame) : result (list Row) :=
  _ <- ensure_columns df_raw required_cols ;;
  let c_WorkType_n := normalize_str_series (getcol df_raw (utf8 "Typ práce")) in
  let c_WorkClass_n := normalize_str_series (getcol df_raw (utf8 "ID pracovní třídy")) in
  let c_Unit_n := normalize_str_series (getcol df_raw (utf8 "Jednotka")) in
  let c_User := map clean_text (getcol df_raw (utf8 "ID uživatele")) in
  let c_SKU := map clean_text (getcol df_raw (utf8 "Č. položky")) in
  let c_Location := map clean_text (getcol df_raw (utf8 "Místo")) in
  c_Den <- to_excel_date_series (getcol df_raw (utf8 "Uzavřená práce")) ;;
  let c_Qty := map (fun c => fillna 0 (to_numeric c))
                   (getcol df_raw (utf8 "Množství práce")) in
  let c_EffectiveQty_STis1 := map2 st_is_1 c_Unit_n c_Qty in
  let c_SkpQty := map2 pal_times_24 c_Unit_n c_Qty in
  let c_is_prijem := map2 prijem_mask c_WorkType_n c_WorkClass_n in
  let c_is_expedice := map2 expedice_mask c_WorkType_n c_WorkClass_n in
  let c_is_tonovani := map2 tonovani_mask c_WorkType_n c_WorkClass_n in
  let c_is_transfer := map2 transfer_mask c_WorkType_n c_WorkClass_n in
  let c_LocationBucket := map location_bucket c_Location in
  let df :=
    map (fun i =>
           {| WorkType_n := nth i c_WorkType_n [];
              WorkClass_n := nth i c_WorkClass_n [];
              Unit_n := nth i c_Unit_n [];
              User := nth i c_User [];
              SKU := nth i c_SKU [];
              Location := nth i c_Location [];
              Den := nth i c_Den None;
              Qty := nth i c_Qty 0;
              EffectiveQty_STis1 := nth i c_EffectiveQty_STis1 0;
              SkpQty := nth i c_SkpQty 0;
              is_prijem := nth i c_is_prijem false;
              is_expedice := nth i c_is_expedice false;
              is_tonovani := nth i c_is_tonovani false;
              is_transfer := nth i c_is_transfer false;
              LocationBucket := nth i c_LocationBucket [] |})
        (seq 0 (List.length (data df_raw))) in
  Ok (filter (fun r => negb (isna (Den r))) df).

(** The same enrichment read row by row: the eight required cells of a
    row, and the enriched row they give. *)
Record RawRow := {
  Typ_prace : cell;
  ID_pracovni_tridy : cell;
  Mnozstvi_prace : cell;
  Jednotka : cell;
  Uzavrena_prace : cell;
  ID_uzivatele : cell;
  C_polozky : cell;
  Misto : cell
}.

Definition raw_row (cols : list str) (r : list cell) : RawRow :=
  let at_ c := nth (column_index c cols) r NA in
  {| Typ_prace := at_ (utf8 "Typ práce");
     ID_pracovni_tridy := at_ (utf8 "ID pracovní třídy");
     Mnozstvi_prace := at_ (utf8 "Množství práce");
     Jednotka := at_ (utf8 "Jednotka");
     Uzavrena_prace := at_ (utf8 "Uzavřená práce");
     ID_uzivatele := at_ (utf8 "ID uživatele");
     C_polozky := at_ (utf8 "Č. položky");
     Misto := at_ (utf8 "Místo") |}.

Definition raw_rows (df : DataFrame) : list RawRow :=
  map (raw_row (columns df)) (data df).

Definition enrich_row (raw : RawRow) : Row :=
  let wt := normalize_str (Typ_prace raw) in
  let wc := normalize_str (ID_pracovni_tridy raw) in
  let un := normalize_str (Jednotka raw) in
  let qty := fillna 0 (to_numeric (Mnozstvi_prace raw)) in
  let loc := clean_text (Misto raw) in
  {| WorkType_n := wt;
     WorkClass_n := wc;
     Unit_n := un;
     User := clean_text (ID_uzivatele raw);
     SKU := clean_text (C_polozky raw);
     Location := loc;
     Den := to_excel_date (Uzavrena_prace raw);
     Qty := qty;
     EffectiveQty_STis1 := st_is_1 un qty;
     SkpQty := pal_times_24 un qty;
     is_prijem := prijem_mask wt wc;
     is_expedice := expedice_mask wt wc;
     is_tonovani := tonovani_mask wt wc;
     is_transfer := transfer_mask wt wc;
     LocationBucket := location_bucket loc |}.
End Enrichment.

(* ------------------------------------------------------------------ *)
(** ** Group keys, [groupby] and the outer merge *)

(** The order [groupby] and [merge] sort their keys by. *)
Class Key (K : Type) := { key_compare : K -> K -> comparison }.

Definition key_eqb {K} `{Key K} (a b : K) : bool :=
  match key_compare a b with Eq => true | _ => false end.

#[global] Instance Key_date : Key date := {| key_compare := Z.compare |}.
#[global] Instance Key_str : Key str := {| key_compare := str_compare |}.

(** A missing key value sorts after every present one. *)
#[global] Instance Key_option {K} `{Key K} : Key (option K) :=
  {| key_compare a b :=
       match a, b with
       | Some x, Some y => key_compare x y
       | Some _, None => Lt
       | None, Some _ => Gt
       | None, None => Eq
       end |}.

(** Several key columns compare lexicographically. *)
#[global] Instance Key_pair {A B} `{Key A} `{Key B} : Key (A * B) :=
  {| key_compare a b :=
       match key_compare (fst a) (fst b) with
       | Eq => key_compare (snd a) (snd b)
       | c => c
       end |}.

Definition table (K V : Type) := list (K * V).

Definition sumQ (l : list Q) : Q := fold_right Qplus 0 l.

Section GroupBy.
Context {K : Type} `{Key K}.

Fixpoint insert_key (k : K) (l : list K) : list K :=
  match l with
  | [] => [k]
  | h :: t =>
      match key_compare k h with
      | Gt => h :: insert_key k t
      | _ => k :: l
      end
  end.

Definition sort_keys (l : list K) : list K := fold_right insert_key [] l.

(** The distinct keys, each at its first occurrence. *)
Fixpoint unique (l : list K) : list K :=
  match l with
  | [] => []
  | h :: t => h :: filter (fun k => negb (key_eqb k h)) (unique t)
  end.

Fixpoint lookup {V} (k : K) (t : table K V) : option V :=
  match t with
  | [] => None
  | (k', v) :: t' => if key_eqb k k' then Some v else lookup k t'
  end.

(** [rows.groupby(by)]: the groups in sorted key order, each with its
    rows in their original order. *)
Definition groupby {R} (by_cols : R -> K) (rows : list R) : table K (list R) :=
  map (fun k => (k, filter (fun r => key_eqb (by_cols r) k) rows))
      (sort_keys (unique (map by_cols rows))).

(** [pd.merge(a, b, on=keys, how="outer")] of two tables with one row per
    key: the union of the keys, sorted; a side without the key is missing. *)
Definition merge_outer {A B} (a : table K A) (b : table K B)
  : table K (option A * option B) :=
  map (fun k => (k, (lookup k a, lookup k b)))
      (sort_keys (unique (map fst a ++ map fst b))).

(** [agg_metric]: sum [value_col] over the rows selected by [mask_col],
    per group of [by_cols]. *)
Definition agg_metric (df_in : list Row) (mask_col : Row -> bool)
           (value_col : Row -> Q) (by_cols : Row -> K) : table K Q :=
  map (fun g => (fst g, sumQ (map value_col (snd g))))
      (groupby by_cols (filter mask_col df_in)).
End GroupBy.

(* ------------------------------------------------------------------ *)
(** ** Filters and the four result tables *)

Record metrics := {
  Prijem : Q;
  Expedice : Q;
  Tonovani : Q
}.

Record with_total := {
  values :> metrics;
  Celkem_bez_Transfery : Q
}.

Record scored := {
  scored_values :> metrics;
  Soucet : Q
}.

(** The selection of the side bar: a day range (when both ends are dates),
    the chosen users (none chosen means no restriction) and the item query
    (empty means no restriction). *)
Record FilterSelection := {
  date_range : option (date * date);
  sel_users : list str;
  sku_query : str
}.

Definition gcols (r : Row) : option date * str := (Den r, User r).
Definition gcols_sku (r : Row) : option date * str * str := (Den r, User r, SKU r).

Section Tables.
Context {C : Conv}.

Definition mask_range (f : FilterSelection) (r : Row) : bool :=
  match date_range f with
  | Some (date_from, date_to) =>
      match Den r with
      | Some d => (date_from <=? d)%Z && (d <=? date_to)%Z
      | None => false
      end
  | None => true
  end.

Definition mask_user (f : FilterSelection) (r : Row) : bool :=
  match sel_users f with
  | [] => true
  | _ :: _ => str_in (User r) (sel_users f)
  end.

Definition mask_sku (f : FilterSelection) (r : Row) : bool :=
  match sku_query f with
  | [] => true
  | _ :: _ => contains_ci (sku_query f) (SKU r)
  end.

(** [df_f = df.loc[mask_range & mask_user & mask_sku]]. *)
Definition apply_filters (f : FilterSelection) (df : list Row) : list Row :=
  filter (fun r => mask_range f r && mask_user f r && mask_sku f r) df.
End Tables.

(** The value a column has after the outer merges and [fillna(0.0)]. *)
Definition left_of {A B} (o : option (option A * option B)) : option A :=
  match o with Some (a, _) => a | None => None end.
Definition right_of {A B} (o : option (option A * option B)) : option B :=
  match o with Some (_, b) => b | None => None end.

(** [fillna(0.0)] on the three metric columns of a merged row. *)
Definition fillna_metrics (v : option (option Q * option Q) * option Q) : metrics :=
  {| Prijem := fillna 0 (left_of (fst v));
     Expedice := fillna 0 (right_of (fst v));
     Tonovani := fillna 0 (snd v) |}.

Section Metrics.
Context {K : Type} `{Key K}.

(** The three per-metric sums, outer-merged on the group key, missing
    combinations filled with zero. *)
Definition merged_metrics (df_f : list Row) (by_cols : Row -> K) : table K metrics :=
  let prijem := agg_metric df_f is_prijem EffectiveQty_STis1 by_cols in
  let expedice := agg_metric df_f is_expedice EffectiveQty_STis1 by_cols in
  let ton := agg_metric df_f is_tonovani SkpQty by_cols in
  map (fun kv => (fst kv, fillna_metrics (snd kv)))
      (merge_outer (merge_outer prijem expedice) ton).
End Metrics.

Definition row_sum (m : metrics) : Q := Prijem m + Expedice m + Tonovani m.

(** 1) Day x user. *)
Definition den_user (df_f : list Row) : table (option date * str) with_total :=
  map (fun kv => (fst kv, {| values := snd kv;
                             Celkem_bez_Transfery := row_sum (snd kv) |}))
      (merged_metrics df_f gcols).

(** 2) Day x user x item. *)
Definition sku_pivot (df_f : list Row) : table (option date * str * str) metrics :=
  merged_metrics df_f gcols_sku.

(** 3) Day totals: the day x user table grouped by day, its four numeric
    columns summed. *)
Definition den_totals (df_f : list Row) : table (option date) with_total :=
  map (fun g =>
         let col (f : with_total -> Q) := sumQ (map (fun kv => f (snd kv)) (snd g)) in
         (fst g, {| values := {| Prijem := col (fun v => Prijem v);
                                 Expedice := col (fun v => Expedice v);
                                 Tonovani := col (fun v => Tonovani v) |};
                    Celkem_bez_Transfery := col Celkem_bez_Transfery |}))
      (groupby (fun kv : (option date * str) * with_total => fst (fst kv))
               (den_user df_f)).

(** 4) Transfers: the number of rows per day and location bucket. *)
Definition transfer_df (df_f : list Row) : table (option date * str) nat :=
  map (fun g => (fst g, List.length (snd g)))
      (groupby (fun r => (Den r, LocationBucket r)) (filter is_transfer df_f)).

(* ------------------------------------------------------------------ *)
(** ** Top-N items *)

Definition sku_scores (df_f : list Row) : table (option date * str * str) scored :=
  map (fun kv => (fst kv, {| scored_values := snd kv; Soucet := row_sum (snd kv) |}))
      (sku_pivot df_f).

(** [sort_values(col, ascending=False)]: rows in descending order of the
    column; rows with equal values keep their order. *)
Fixpoint insert_desc {R} (col : R -> Q) (x : R) (l : list R) : list R :=
  match l with
  | [] => [x]
  | h :: t =>
      if Qle_bool (col h) (col x) then x :: l
      else h :: insert_desc col x t
  end.

Definition sort_values_desc {R} (col : R -> Q) (l : list R) : list R :=
  fold_right (insert_desc col) [] l.

Definition all_days : str := utf8 "(vše)".
Definition all_users : str := utf8 "(všichni)".

(** The selection mask of the Top-N view. *)
Definition mask_top (sel_day_for_top sel_user_for_top : str)
           (row : (option date * str * str) * scored) : bool :=
  let '(den, user, _) := fst row in
  (if negb (str_eqb sel_day_for_top all_days)
   then str_eqb (date_str den) sel_day_for_top else true)
  && (if negb (str_eqb sel_user_for_top all_users)
      then str_eqb user sel_user_for_top else true).

(** [.groupby(["Den", "User", "SKU"], as_index=False).agg(... "sum")]. *)
Definition regroup (rows : table (option date * str * str) scored)
  : table (option date * str * str) scored :=
  map (fun g =>
         let col (f : scored -> Q) := sumQ (map (fun kv => f (snd kv)) (snd g)) in
         (fst g, {| scored_values := {| Prijem := col (fun v => Prijem v);
                                        Expedice := col (fun v => Expedice v);
                                        Tonovani := col (fun v => Tonovani v) |};
                    Soucet := col Soucet |}))
      (groupby (fun kv : (option date * str * str) * scored => fst kv) rows).

Definition score_of (row : (option date * str * str) * scored) : Q := Soucet (snd row).

Definition sku_top (top_n : nat) (sel_day_for_top sel_user_for_top : str)
           (df_f : list Row) : table (option date * str * str) scored :=
  let selected := filter (mask_top sel_day_for_top sel_user_for_top) (sku_scores df_f) in
  let grouped := regroup (sort_values_desc score_of selected) in
  if negb (str_eqb sel_day_for_top all_days) || negb (str_eqb sel_user_for_top all_users)
  then firstn top_n grouped
  else firstn top_n (sort_values_desc score_of grouped).

(* ------------------------------------------------------------------ *)
(** ** Concrete instances, used to run the definitions *)

Fixpoint assoc {A} (c : codepoint) (t : list (codepoint * A)) : option A :=
  match t with
  | [] => None
  | (k, v) :: t' => if (c =? k)%N then Some v else assoc c t'
  end.

(** The decompositions of the Czech accented letters (base letter, then
    acute U+0301, caron U+030C or ring above U+030A). *)
Definition czech_table : list (codepoint * str) :=
  [(0x00C1, [0x41; 0x0301])%N; (0x010C, [0x43; 0x030C])%N; (0x010E, [0x44; 0x030C])%N;
   (0x00C9, [0x45; 0x0301])%N; (0x011A, [0x45; 0x030C])%N; (0x00CD, [0x49; 0x0301])%N;
   (0x0147, [0x4E; 0x030C])%N; (0x00D3, [0x4F; 0x0301])%N; (0x0158, [0x52; 0x030C])%N;
   (0x0160, [0x53; 0x030C])%N; (0x0164, [0x54; 0x030C])%N; (0x00DA, [0x55; 0x0301])%N;
   (0x016E, [0x55; 0x030A])%N; (0x00DD, [0x59; 0x0301])%N; (0x017D, [0x5A; 0x030C])%N;
   (0x00E1, [0x61; 0x0301])%N; (0x010D, [0x63; 0x030C])%N; (0x010F, [0x64; 0x030C])%N;
   (0x00E9, [0x65; 0x0301])%N; (0x011B, [0x65; 0x030C])%N; (0x00ED, [0x69; 0x0301])%N;
   (0x0148, [0x6E; 0x030C])%N; (0x00F3, [0x6F; 0x0301])%N; (0x0159, [0x72; 0x030C])%N;
   (0x0161, [0x73; 0x030C])%N; (0x0165, [0x74; 0x030C])%N; (0x00FA, [0x75; 0x0301])%N;
   (0x016F, [0x75; 0x030A])%N; (0x00FD, [0x79; 0x0301])%N; (0x017E, [0x7A; 0x030C])%N].

(** The part of the Unicode Character Database that Czech text needs:
    every other code point is its own decomposition and a starter; the
    decimal digits are the ASCII ones. *)
Definition czech_ucd : UCD :=
  {| decomposition c := fillna [c] (assoc c czech_table);
     combining_class c :=
       if ((c =? 0x301) || (c =? 0x30A) || (c =? 0x30C))%N then 230%N else 0%N;
     is_decimal c := ((0x30 <=? c) && (c <=? 0x39))%N |}.

(** Upper-casing of ASCII and Czech letters, as [str.upper] does it. *)
Definition cz_case : list (codepoint * codepoint) :=
  combine (utf8 "áčďéěíňóřšťúůýž") (utf8 "ÁČĎÉĚÍŇÓŘŠŤÚŮÝŽ").

Definition cz_upper_char (c : codepoint) : codepoint :=
  if ((0x61 <=? c) && (c <=? 0x7A))%N then (c - 32)%N
  else fillna c (assoc c cz_case).

Definition cz_upper (s : str) : str := map cz_upper_char s.

Fixpoint parse_digits (acc : Z) (s : str) : option Z :=
  match s with
  | [] => Some acc
  | c :: t =>
      if ((0x30 <=? c) && (c <=? 0x39))%N
      then parse_digits (10 * acc + Z.of_N (c - 0x30)) t
      else None
  end.

Fixpoint is_prefix (p s : str) : bool :=
  match p, s with
  | [], _ => true
  | x :: p', y :: s' => (x =? y)%N && is_prefix p' s'
  | _ :: _, [] => false
  end.

Fixpoint is_infix (p s : str) : bool :=
  is_prefix p s || match s with [] => false | _ :: t => is_infix p t end.

(** Stand-ins for the library conversions: whole numbers are rendered and
    read in decimal, any other text is not a number, and the item query is
    searched as plain text without regard to ASCII case. *)
Definition plain_conv : Conv :=
  {| number_repr q := utf8 (NilZero.string_of_int (Z.to_int (Qfloor q)));
     parse_number s :=
       match s with
       | [] => None
       | _ :: _ => option_map inject_Z (parse_digits 0 s)
       end;
     contains_ci query s := is_infix (upper query) (upper s) |}.

(* ================================================================== *)
(** * Properties *)

(** ** Strings *)

Lemma str_eqb_eq (a b : str) : str_eqb a b = true <-> a = b.
Proof.
  revert b; induction a as [|x a IH]; intros [|y b]; simpl; split;
    try congruence; try discriminate.
  - rewrite andb_true_iff, N.eqb_eq, IH. intros [-> ->]; reflexivity.
  - intros E; injection E as -> ->. now rewrite N.eqb_refl, (proj2 (IH b)).
Qed.

Lemma str_eqb_refl (a : str) : str_eqb a a = true.
Proof. now apply str_eqb_eq. Qed.

Lemma str_eqb_neq (a b : str) : str_eqb a b = false <-> a <> b.
Proof.
  split.
  - intros E ->. rewrite str_eqb_refl in E. discriminate.
  - intros N. destruct (str_eqb a b) eqn:E; [|reflexivity].
    apply str_eqb_eq in E. contradiction.
Qed.

Lemma str_in_In (x : str) (xs : list str) : str_in x xs = true <-> In x xs.
Proof.
  unfold str_in. rewrite existsb_exists. split.
  - intros (y & Hy & E). apply str_eqb_eq in E. now subst.
  - intros Hx. exists x. split; [assumption|apply str_eqb_refl].
Qed.

Lemma str_compare_eq (a b : str) : str_compare a b = Eq <-> a = b.
Proof.
  revert b; induction a as [|x a IH]; intros [|y b]; simpl; split;
    try congruence; try discriminate.
  - destruct (N.compare_spec x y) as [->| |]; try discriminate.
    intros E. apply IH in E. now subst.
  - intros E; injection E as -> ->. rewrite N.compare_refl. now apply IH.
Qed.

(** Two equality tests on the same text that both succeed compare it with
    the same literal. *)
Ltac clash :=
  match goal with
  | H1 : str_eqb ?a ?x = true, H2 : str_eqb ?a ?y = true |- _ =>
      let E := fresh "E" in
      assert (E : x = y)
        by (apply str_eqb_eq in H1; apply str_eqb_eq in H2; congruence);
      vm_compute in E; discriminate E
  end.

(** ** Stripping and upper-casing *)

(** Settles every comparison of the goal that the hypotheses decide. *)
Ltac decide_cmp :=
  repeat match goal with
         | |- context [(?a <=? ?b)%N] =>
             first [ replace (a <=? b)%N with true by (symmetry; apply N.leb_le; lia)
                   | replace (a <=? b)%N with false by (symmetry; apply N.leb_gt; lia) ]
         | |- context [(?a <? ?b)%N] =>
             first [ replace (a <? b)%N with true by (symmetry; apply N.ltb_lt; lia)
                   | replace (a <? b)%N with false by (symmetry; apply N.ltb_ge; lia) ]
         | |- context [(?a =? ?b)%N] =>
             first [ replace (a =? b)%N with true by (symmetry; apply N.eqb_eq; lia)
                   | replace (a =? b)%N with false by (symmetry; apply N.eqb_neq; lia) ]
         end; simpl.

Lemma lower_range (c : codepoint) :
  ((0x61 <=? c) && (c <=? 0x7A))%N = true -> (0x61 <= c <= 0x7A)%N.
Proof. rewrite andb_true_iff, !N.leb_le. tauto. Qed.

Lemma upper_char_idem (c : codepoint) : upper_char (upper_char c) = upper_char c.
Proof.
  unfold upper_char.
  destruct ((0x61 <=? c) && (c <=? 0x7A))%N eqn:E; [|now rewrite E].
  apply lower_range in E. now decide_cmp.
Qed.

Lemma upper_idem (s : str) : upper (upper s) = upper s.
Proof.
  unfold upper. rewrite map_map. apply map_ext. intros; apply upper_char_idem.
Qed.

Lemma is_space_upper_char (c : codepoint) : is_space (upper_char c) = is_space c.
Proof.
  unfold upper_char.
  destruct ((0x61 <=? c) && (c <=? 0x7A))%N eqn:E; [|reflexivity].
  apply lower_range in E. unfold is_space. now decide_cmp.
Qed.

Lemma is_ascii_upper_char (c : codepoint) : is_ascii (upper_char c) = is_ascii c.
Proof.
  unfold upper_char.
  destruct ((0x61 <=? c) && (c <=? 0x7A))%N eqn:E; [|reflexivity].
  apply lower_range in E. unfold is_ascii. now decide_cmp.
Qed.

Lemma lstrip_map (f : codepoint -> codepoint) (s : str) :
  (forall c, is_space (f c) = is_space c) ->
  lstrip (map f s) = map f (lstrip s).
Proof.
  intros Hf. induction s as [|c s IH]; simpl; [reflexivity|].
  rewrite Hf. destruct (is_space c); [apply IH|reflexivity].
Qed.

Lemma rstrip_map (f : codepoint -> codepoint) (s : str) :
  (forall c, is_space (f c) = is_space c) ->
  rstrip (map f s) = map f (rstrip s).
Proof.
  intros Hf. induction s as [|c s IH]; simpl; [reflexivity|].
  rewrite IH, Hf. destruct (rstrip s); simpl; [|reflexivity].
  destruct (is_space c); reflexivity.
Qed.

Lemma strip_map (f : codepoint -> codepoint) (s : str) :
  (forall c, is_space (f c) = is_space c) ->
  strip (map f s) = map f (strip s).
Proof.
  intros Hf. unfold strip. now rewrite lstrip_map, rstrip_map.
Qed.

(** A text starts clean when it is empty or its first character is no
    white space. *)
Definition starts_clean (s : str) : Prop :=
  match s with [] => True | c :: _ => is_space c = false end.

Lemma lstrip_starts_clean (s : str) : starts_clean (lstrip s).
Proof.
  induction s as [|c s IH]; simpl; [exact I|].
  destruct (is_space c) eqn:E; [exact IH|exact E].
Qed.

Lemma lstrip_clean (s : str) : starts_clean s -> lstrip s = s.
Proof. destruct s as [|c s]; simpl; [reflexivity|]. now intros ->. Qed.

Lemma rstrip_starts_clean (s : str) : starts_clean s -> starts_clean (rstrip s).
Proof.
  destruct s as [|c s]; simpl; [trivial|]. intros Hc.
  destruct (rstrip s); simpl; [|exact Hc]. rewrite Hc. exact Hc.
Qed.

Lemma rstrip_idem (s : str) : rstrip (rstrip s) = rstrip s.
Proof.
  induction s as [|c s IH]; simpl; [reflexivity|].
  destruct (rstrip s) as [|d t] eqn:E.
  - destruct (is_space c) eqn:Ec; simpl; [reflexivity|]. now rewrite Ec.
  - change (rstrip (c :: d :: t))
      with (match rstrip (d :: t) with
            | [] => if is_space c then [] else [c]
            | t' => c :: t'
            end).
    now rewrite IH.
Qed.

Lemma strip_idem (s : str) : strip (strip s) = strip s.
Proof.
  unfold strip.
  rewrite (lstrip_clean (rstrip (lstrip s))).
  - apply rstrip_idem.
  - apply rstrip_starts_clean, lstrip_starts_clean.
Qed.

Lemma lstrip_Forall (P : codepoint -> Prop) (s : str) :
  Forall P s -> Forall P (lstrip s).
Proof.
  induction 1 as [|c s Hc Hs IH]; simpl; [constructor|].
  destruct (is_space c); [exact IH|now constructor].
Qed.

Lemma rstrip_Forall (P : codepoint -> Prop) (s : str) :
  Forall P s -> Forall P (rstrip s).
Proof.
  induction 1 as [|c s Hc Hs IH]; simpl; [constructor|].
  destruct (rstrip s).
  - destruct (is_space c); repeat constructor; assumption.
  - now constructor.
Qed.

Lemma strip_Forall (P : codepoint -> Prop) (s : str) :
  Forall P s -> Forall P (strip s).
Proof. intros. now apply rstrip_Forall, lstrip_Forall. Qed.

Definition all_ascii (s : str) : Prop := Forall (fun c => is_ascii c = true) s.

Lemma ascii_ignore_all_ascii (s : str) : all_ascii (ascii_ignore s).
Proof.
  unfold all_ascii, ascii_ignore. apply Forall_forall.
  intros c Hc. now apply filter_In in Hc.
Qed.

Lemma ascii_ignore_id (s : str) : all_ascii s -> ascii_ignore s = s.
Proof.
  induction 1 as [|c s Hc Hs IH]; simpl; [reflexivity|].
  rewrite Hc. now f_equal.
Qed.

Lemma upper_all_ascii (s : str) : all_ascii s -> all_ascii (upper s).
Proof.
  unfold all_ascii, upper. intros Hs. apply Forall_map.
  eapply Forall_impl; [|exact Hs]. intros c. now rewrite is_ascii_upper_char.
Qed.

Lemma strip_upper (s : str) : strip (upper s) = upper (strip s).
Proof. apply strip_map, is_space_upper_char. Qed.

(** ** The category masks *)

Definition count_true (l : list bool) : nat := List.length (filter (fun b => b) l).

Lemma masks_exclusive (wt wc : str) :
  (count_true [prijem_mask wt wc; expedice_mask wt wc;
               tonovani_mask wt wc; transfer_mask wt wc] <= 1)%nat.
Proof.
  unfold prijem_mask, expedice_mask, tonovani_mask, transfer_mask, str_in, count_true.
  simpl existsb.
  destruct (str_eqb wt (utf8 "VLOZIT")) eqn:V, (str_eqb wt (utf8 "VYDAT")) eqn:D,
    (str_eqb wc (utf8 "NAKUP")) eqn:N, (str_eqb wc (utf8 "PRODEJ")) eqn:P,
    (str_eqb wc []) eqn:Z, (str_eqb wc (utf8 "VYROBA")) eqn:Y,
    (str_eqb wc (utf8 "PO_POZN")) eqn:O;
    try clash; simpl; lia.
Qed.

(** The flags of an enriched row are these masks of its normalised texts. *)
Lemma enrich_row_flags {U : UCD} {C : Conv} (raw : RawRow) :
  let r := enrich_row raw in
  is_prijem r = prijem_mask (WorkType_n r) (WorkClass_n r)
  /\ is_expedice r = expedice_mask (WorkType_n r) (WorkClass_n r)
  /\ is_tonovani r = tonovani_mask (WorkType_n r) (WorkClass_n r)
  /\ is_transfer r = transfer_mask (WorkType_n r) (WorkClass_n r).
Proof. simpl. repeat split. Qed.

Lemma enrich_row_one_category {U : UCD} {C : Conv} (raw : RawRow) :
  let r := enrich_row raw in
  (count_true [is_prijem r; is_expedice r; is_tonovani r; is_transfer r] <= 1)%nat.
Proof. simpl. apply masks_exclusive. Qed.

(** ** Normalisation *)

Section NormalisationFacts.
Context {U : UCD} {C : Conv}.
Hypothesis HU : ascii_stable U.

Lemma marks_not_ascii (c : codepoint) :
  (combining_class c =? 0)%N = false -> is_ascii c = false.
Proof.
  intros Hc. destruct (is_ascii c) eqn:E; [|reflexivity].
  destruct (HU c E) as [_ H0]. rewrite H0 in Hc. discriminate.
Qed.

Lemma ascii_ignore_insert_mark (c : codepoint) (s : str) :
  is_ascii c = false -> ascii_ignore (insert_mark c s) = ascii_ignore s.
Proof.
  unfold ascii_ignore. intros Hc. induction s as [|d s IH]; simpl.
  - now rewrite Hc.
  - destruct ((0 <? combining_class d)%N && (combining_class d <? combining_class c)%N);
      simpl.
    + now rewrite IH.
    + now rewrite Hc.
Qed.

(** Canonical ordering only moves combining marks, none of them ASCII. *)
Lemma ascii_ignore_canonical_order (s : str) :
  ascii_ignore (canonical_order s) = ascii_ignore s.
Proof.
  induction s as [|c s IH]; simpl; [reflexivity|].
  destruct (combining_class c =? 0)%N eqn:Hc.
  - unfold ascii_ignore in *. simpl. now rewrite IH.
  - rewrite ascii_ignore_insert_mark by now apply marks_not_ascii.
    unfold ascii_ignore in *. simpl.
    now rewrite (marks_not_ascii c Hc).
Qed.

Definition skeleton (c : codepoint) : str := ascii_ignore (decomposition c).

Lemma ascii_ignore_nfkd (s : str) :
  ascii_ignore (nfkd s) = flat_map skeleton s.
Proof.
  unfold nfkd. rewrite ascii_ignore_canonical_order.
  induction s as [|c s IH]; simpl; [reflexivity|].
  unfold ascii_ignore in *. now rewrite filter_app, IH.
Qed.

Lemma skeleton_ascii (c : codepoint) : is_ascii c = true -> skeleton c = [c].
Proof.
  intros Hc. unfold skeleton. destruct (HU c Hc) as [-> _]. simpl. now rewrite Hc.
Qed.

Lemma flat_map_skeleton_ascii (s : str) : all_ascii s -> flat_map skeleton s = s.
Proof.
  induction 1 as [|c s Hc Hs IH]; simpl; [reflexivity|].
  now rewrite skeleton_ascii, IH.
Qed.

Lemma normalize_str_text (s : str) :
  normalize_str (Text s) = upper (flat_map skeleton (strip s)).
Proof. unfold normalize_str, clean_text. simpl. now rewrite ascii_ignore_nfkd. Qed.

Lemma normalize_str_all_ascii (c : cell) : all_ascii (normalize_str c).
Proof. unfold normalize_str. apply upper_all_ascii, ascii_ignore_all_ascii. Qed.

Lemma normalize_str_upper (c : cell) : upper (normalize_str c) = normalize_str c.
Proof. unfold normalize_str. apply upper_idem. Qed.

(** On ASCII text the normaliser trims and upper-cases. *)
Lemma normalize_str_ascii (s : str) :
  all_ascii s -> normalize_str (Text s) = upper (strip s).
Proof.
  intros Hs. rewrite normalize_str_text, flat_map_skeleton_ascii; [reflexivity|].
  now apply strip_Forall.
Qed.

(** Normalising a normal form trims it, and does nothing else. *)
Lemma normalize_str_twice (c : cell) :
  normalize_str (Text (normalize_str c)) = strip (normalize_str c).
Proof.
  rewrite normalize_str_ascii by apply normalize_str_all_ascii.
  now rewrite <- strip_upper, normalize_str_upper.
Qed.

Lemma normalize_str_idem_ascii (s : str) :
  all_ascii s ->
  normalize_str (Text (normalize_str (Text s))) = normalize_str (Text s).
Proof.
  intros Hs. rewrite normalize_str_twice, normalize_str_ascii by assumption.
  now rewrite strip_upper, strip_idem.
Qed.

Lemma normalize_str_NA : normalize_str NA = [].
Proof. reflexivity. Qed.
End NormalisationFacts.

(** *** Czech letters *)

(** A database agrees with the Czech table. *)
Definition extends_czech (U : UCD) : Prop :=
  forall c d, assoc c czech_table = Some d -> decomposition c = d.

Lemma assoc_In {A} (c : codepoint) (t : list (codepoint * A)) (v : A) :
  assoc c t = Some v -> In (c, v) t.
Proof.
  induction t as [|[k w] t IH]; simpl; [discriminate|].
  destruct (N.eqb_spec c k) as [->|].
  - intros E; injection E as ->. now left.
  - intros E. right. now apply IH.
Qed.

Lemma czech_ucd_ascii_stable : ascii_stable czech_ucd.
Proof.
  intros c Hc. unfold is_ascii in Hc. apply N.ltb_lt in Hc.
  unfold decomposition, combining_class, czech_ucd, czech_table. simpl assoc.
  decide_cmp. split; reflexivity.
Qed.

Lemma czech_ucd_extends : extends_czech czech_ucd.
Proof. intros c d E. unfold decomposition, czech_ucd. now rewrite E. Qed.

Ltac czech_cases A :=
  apply assoc_In in A; vm_compute in A;
  repeat (destruct A as [A|A]; [injection A as <- <-|]); [..|destruct A].

Lemma is_space_cz_upper_char (c : codepoint) :
  is_space (cz_upper_char c) = is_space c.
Proof.
  unfold cz_upper_char.
  destruct ((0x61 <=? c) && (c <=? 0x7A))%N eqn:E.
  - apply lower_range in E. unfold is_space. now decide_cmp.
  - destruct (assoc c cz_case) as [u|] eqn:A; simpl; [|reflexivity].
    czech_cases A; reflexivity.
Qed.

Section CzechFacts.
Context {U : UCD} {C : Conv}.
Hypothesis HU : ascii_stable U.
Hypothesis Hcz : extends_czech U.

Lemma skeleton_czech (c : codepoint) (d : str) :
  assoc c czech_table = Some d -> skeleton c = ascii_ignore d.
Proof. intros E. unfold skeleton. now rewrite (Hcz c E). Qed.

(** A letter and its capital have the same upper-cased ASCII skeleton. *)
Lemma skeleton_cz_upper_char (c : codepoint) :
  upper (skeleton (cz_upper_char c)) = upper (skeleton c).
Proof.
  unfold cz_upper_char.
  destruct ((0x61 <=? c) && (c <=? 0x7A))%N eqn:E.
  - apply lower_range in E.
    rewrite !(skeleton_ascii HU) by (unfold is_ascii; now decide_cmp).
    simpl. unfold upper_char. now decide_cmp.
  - destruct (assoc c cz_case) as [u|] eqn:A; simpl; [|reflexivity].
    czech_cases A;
      match goal with
      | |- upper (skeleton ?a) = upper (skeleton ?b) =>
          rewrite (skeleton_czech a eq_refl), (skeleton_czech b eq_refl);
          reflexivity
      end.
Qed.

Lemma normalize_str_cz_upper (s : str) :
  normalize_str (Text (cz_upper s)) = normalize_str (Text s).
Proof.
  rewrite !(normalize_str_text HU). unfold cz_upper.
  rewrite (strip_map _ _ is_space_cz_upper_char).
  induction (strip s) as [|c x IH]; simpl; [reflexivity|].
  unfold upper in *. rewrite !map_app. f_equal; [|exact IH].
  apply skeleton_cz_upper_char.
Qed.

Lemma normalize_case_variants (s t : str) :
  cz_upper s = cz_upper t -> normalize_str (Text s) = normalize_str (Text t).
Proof.
  intros E. rewrite <- (normalize_str_cz_upper s), <- (normalize_str_cz_upper t).
  now rewrite E.
Qed.

Lemma normalize_vyroba :
  normalize_str (Text (utf8 "Výroba")) = utf8 "VYROBA"
  /\ normalize_str (Text (utf8 "VÝROBA")) = utf8 "VYROBA"
  /\ normalize_str (Text (utf8 "výroba")) = utf8 "VYROBA".
Proof.
  assert (E : normalize_str (Text (utf8 "VÝROBA")) = utf8 "VYROBA").
  { rewrite (normalize_str_text HU).
    change (strip (utf8 "VÝROBA")) with [0x56; 0xDD; 0x52; 0x4F; 0x42; 0x41]%N.
    simpl flat_map.
    rewrite (skeleton_czech 0xDD%N eq_refl).
    rewrite !(skeleton_ascii HU) by reflexivity. reflexivity. }
  rewrite <- E. split; [|split; [reflexivity|]];
    apply normalize_case_variants; reflexivity.
Qed.
End CzechFacts.

(** C6 (amended).  Normalising a normal form only trims it, so the
    normaliser is idempotent exactly where the normal form has no white
    space at its ends, in particular on every ASCII text; texts that differ
    only in the case of ASCII and Czech letters have the same normal form
    (Výroba, VÝROBA and výroba all give VYROBA); a missing value gives the
    empty text.  The normaliser is a total function. *)
Theorem C6_normalize_str_canonical :
  forall (U : UCD) (C : Conv), ascii_stable U -> extends_czech U ->
    (forall c : cell, normalize_str (Text (normalize_str c)) = strip (normalize_str c))
    /\ (forall s : str, all_ascii s ->
          normalize_str (Text (normalize_str (Text s))) = normalize_str (Text s))
    /\ (forall s t : str, cz_upper s = cz_upper t ->
          normalize_str (Text s) = normalize_str (Text t))
    /\ (normalize_str (Text (utf8 "Výroba")) = utf8 "VYROBA"
        /\ normalize_str (Text (utf8 "VÝROBA")) = utf8 "VYROBA"
        /\ normalize_str (Text (utf8 "výroba")) = utf8 "VYROBA")
    /\ normalize_str NA = [].
Proof.
  intros U C HU Hcz. repeat apply conj.
  - apply (normalize_str_twice HU).
  - apply (normalize_str_idem_ascii HU).
  - apply (normalize_case_variants HU Hcz).
  - apply (normalize_vyroba HU Hcz).
  - apply (normalize_vyroba HU Hcz).
  - apply (normalize_vyroba HU Hcz).
  - reflexivity.
Qed.

(** The normaliser run with the Czech table. *)
Definition normalize_cz : cell -> str :=
  normalize_str (U := czech_ucd) (C := plain_conv).

Lemma C6_normalize_str_canonical_witness :
  ascii_stable czech_ucd /\ extends_czech czech_ucd
  /\ normalize_cz (Text (normalize_cz (Text (utf8 " Nákup "))))
     = strip (normalize_cz (Text (utf8 " Nákup "))).
Proof.
  split; [exact czech_ucd_ascii_stable|].
  split; [exact czech_ucd_extends|].
  exact (proj1 (@C6_normalize_str_canonical czech_ucd plain_conv
                  czech_ucd_ascii_stable czech_ucd_extends)
               (Text (utf8 " Nákup "))).
Defined.

(** The claim as stated fails: a character that is dropped, next to a
    space, leaves a normal form that the normaliser changes again. *)
Lemma C6_counterexample_not_idempotent :
  normalize_cz (Text (normalize_cz (Text (utf8 "€ A"))))
  <> normalize_cz (Text (utf8 "€ A")).
Proof. vm_compute. discriminate. Qed.

(** C1.  For every pair of normalised work type and work class, at most one
    of the four category masks (Prijem / inbound, Expedice / outbound,
    Tonovani / conversion, Transfer) is true; so at most one of the flags
    is_prijem, is_expedice, is_tonovani, is_transfer of an enriched row is. *)
Theorem C1_categories_mutually_exclusive :
  (forall wt wc : str,
      (count_true [prijem_mask wt wc; expedice_mask wt wc;
                   tonovani_mask wt wc; transfer_mask wt wc] <= 1)%nat)
  /\ (forall (U : UCD) (C : Conv) (raw : RawRow),
         (count_true [is_prijem (enrich_row raw); is_expedice (enrich_row raw);
                      is_tonovani (enrich_row raw); is_transfer (enrich_row raw)]
          <= 1)%nat).
Proof.
  split.
  - exact masks_exclusive.
  - intros U C raw. apply (enrich_row_one_category raw).
Qed.

(** ** Regular expressions *)

Lemma nullable_matches (r : regex) : nullable r = true -> matches r [].
Proof.
  induction r; simpl; intros E; try discriminate.
  - constructor.
  - apply andb_true_iff in E. destruct E.
    change (@nil codepoint) with (@nil codepoint ++ []). constructor; auto.
  - apply orb_true_iff in E. destruct E; [apply m_alt_l|apply m_alt_r]; auto.
  - constructor.
Qed.

Lemma matches_nullable (r : regex) : matches r [] -> nullable r = true.
Proof.
  induction r; intros M; inversion M; subst; simpl; auto.
  - match goal with E : _ ++ _ = [] |- _ => apply app_eq_nil in E; destruct E; subst end.
    apply andb_true_iff. split; auto.
  - rewrite IHr1 by assumption. reflexivity.
  - rewrite IHr2 by assumption. apply orb_true_r.
Qed.

Lemma star_cons_inv (r : regex) (c : codepoint) (s : str) :
  matches (Star r) (c :: s) ->
  exists s1 s2, s = s1 ++ s2 /\ matches r (c :: s1) /\ matches (Star r) s2.
Proof.
  intros M. remember (Star r) as r' eqn:Er. remember (c :: s) as w eqn:Ew.
  revert s Ew. induction M; intros s' Ew; try discriminate.
  injection Er as ->. destruct s1 as [|c1 s1]; simpl in Ew.
  - apply IHM2; auto.
  - injection Ew as -> <-. exists s1, s2. auto.
Qed.

Lemma deriv_sound (r : regex) (c : codepoint) (s : str) :
  matches (deriv c r) s -> matches r (c :: s).
Proof.
  revert s. induction r; simpl; intros s M.
  - inversion M.
  - inversion M.
  - destruct (p c) eqn:E; inversion M; subst. now constructor.
  - destruct (nullable r1) eqn:E.
    + inversion M; subst.
      * match goal with H : matches (Cat _ _) _ |- _ => inversion H; subst end.
        change (c :: s1 ++ s2) with ((c :: s1) ++ s2). constructor; auto.
      * change (c :: s) with ([] ++ c :: s). constructor; auto.
        now apply nullable_matches.
    + inversion M; subst.
      change (c :: s1 ++ s2) with ((c :: s1) ++ s2). constructor; auto.
  - inversion M; subst; [apply m_alt_l|apply m_alt_r]; auto.
  - inversion M; subst.
    change (c :: s1 ++ s2) with ((c :: s1) ++ s2). constructor; auto.
Qed.

Lemma deriv_complete (r : regex) (c : codepoint) (s : str) :
  matches r (c :: s) -> matches (deriv c r) s.
Proof.
  revert s. induction r; simpl; intros s M.
  - inversion M.
  - inversion M.
  - inversion M; subst. match goal with H : p c = true |- _ => rewrite H end.
    constructor.
  - inversion M; subst. destruct s1 as [|c1 s1]; simpl in *.
    + match goal with H : matches r1 [] |- _ =>
        rewrite (matches_nullable H) end.
      subst. apply m_alt_r. auto.
    + match goal with H : _ :: _ = _ :: _ |- _ => injection H as -> <- end.
      destruct (nullable r1); [apply m_alt_l|]; constructor; auto.
  - inversion M; subst; [apply m_alt_l|apply m_alt_r]; auto.
  - apply star_cons_inv in M. destruct M as (s1 & s2 & -> & M1 & M2).
    constructor; auto.
Qed.

(** The matcher decides the language. *)
Lemma fullmatch_matches (r : regex) (s : str) : fullmatch r s = true <-> matches r s.
Proof.
  revert r. induction s as [|c s IH]; intros r; simpl.
  - split; [apply nullable_matches|apply matches_nullable].
  - rewrite IH. split; [apply deriv_sound|apply deriv_complete].
Qed.

Lemma matches_class_inv (p : codepoint -> bool) (s : str) :
  matches (Class p) s -> exists c, s = [c] /\ p c = true.
Proof. intros M. inversion M; subst. eauto. Qed.

Lemma matches_star_class (p : codepoint -> bool) (s : str) :
  matches (Star (Class p)) s <-> Forall (fun c => p c = true) s.
Proof.
  split.
  - intros M. remember (Star (Class p)) as r eqn:Er.
    induction M; try discriminate.
    + constructor.
    + injection Er as ->. apply matches_class_inv in M1.
      destruct M1 as (c & -> & Hc). simpl. constructor; auto.
  - induction 1 as [|c s Hc Hs IH].
    + constructor.
    + change (c :: s) with ([c] ++ s). constructor; [now constructor|exact IH].
Qed.

(** A run of one or more characters of a class. *)
Definition run_of (p : codepoint -> bool) (s : str) : Prop :=
  s <> [] /\ Forall (fun c => p c = true) s.

Lemma matches_plus_class (p : codepoint -> bool) (s : str) :
  matches (Plus (Class p)) s <-> run_of p s.
Proof.
  unfold Plus, run_of. split.
  - intros M. inversion M; subst.
    match goal with H : matches (Class p) _ |- _ =>
      apply matches_class_inv in H; destruct H as (c & -> & Hc) end.
    match goal with H : matches (Star _) _ |- _ => apply matches_star_class in H end.
    simpl. split; [discriminate|constructor; auto].
  - intros [Hne Hall]. destruct s as [|c s]; [contradiction|].
    inversion Hall; subst. change (c :: s) with ([c] ++ s).
    constructor; [now constructor|now apply matches_star_class].
Qed.

(** ** Location buckets *)

(** The texts of the form letter, dash, digits, dash, digits, dash, digits,
    with the letter in the class of the pattern. *)
Definition is_address {U : UCD} (s : str) : Prop :=
  exists c d1 d2 d3,
    s = [c] ++ utf8 "-" ++ d1 ++ utf8 "-" ++ d2 ++ utf8 "-" ++ d3
    /\ addr_letter c = true
    /\ run_of is_decimal d1 /\ run_of is_decimal d2 /\ run_of is_decimal d3.

Definition bucket_label : str := utf8 "Adresy (kódy)".

Lemma cat_inv (r1 r2 : regex) (s : str) :
  matches (Cat r1 r2) s ->
  exists s1 s2, s = s1 ++ s2 /\ matches r1 s1 /\ matches r2 s2.
Proof. intros M. inversion M; subst. eauto. Qed.

Lemma matches_dash (s : str) : matches dash s <-> s = utf8 "-".
Proof.
  unfold dash. split.
  - intros M. apply matches_class_inv in M. destruct M as (c & -> & E).
    apply N.eqb_eq in E. now subst.
  - intros ->. now constructor.
Qed.

Section Buckets.
Context {U : UCD}.

Lemma matches_addr_regex (s : str) : matches addr_regex s <-> is_address s.
Proof.
  unfold addr_regex, is_address. split.
  - intros M.
    apply cat_inv in M. destruct M as (a & s1 & -> & Ma & M).
    apply cat_inv in M. destruct M as (h1 & s2 & -> & Mh1 & M).
    apply cat_inv in M. destruct M as (d1 & s3 & -> & Md1 & M).
    apply cat_inv in M. destruct M as (h2 & s4 & -> & Mh2 & M).
    apply cat_inv in M. destruct M as (d2 & s5 & -> & Md2 & M).
    apply cat_inv in M. destruct M as (h3 & d3 & -> & Mh3 & Md3).
    apply matches_class_inv in Ma. destruct Ma as (c & -> & Hc).
    apply matches_dash in Mh1, Mh2, Mh3. subst.
    apply matches_plus_class in Md1, Md2, Md3.
    exists c, d1, d2, d3. auto.
  - intros (c & d1 & d2 & d3 & -> & Hc & H1 & H2 & H3).
    repeat (apply m_cat;
            try (apply matches_dash; reflexivity);
            try (apply matches_plus_class; assumption)).
    now constructor.
Qed.

Lemma location_bucket_address (loc : str) :
  is_address loc -> location_bucket loc = bucket_label.
Proof.
  intros H. apply matches_addr_regex, fullmatch_matches in H.
  unfold location_bucket. now rewrite H.
Qed.

Lemma location_bucket_other (loc : str) :
  ~ is_address loc -> location_bucket loc = loc.
Proof.
  intros H. unfold location_bucket.
  destruct (fullmatch addr_regex loc) eqn:E; [|reflexivity].
  apply fullmatch_matches, matches_addr_regex in E. contradiction.
Qed.

Lemma location_bucket_cases (loc : str) :
  (is_address loc /\ location_bucket loc = bucket_label)
  \/ (~ is_address loc /\ location_bucket loc = loc).
Proof.
  destruct (fullmatch addr_regex loc) eqn:E.
  - left. apply fullmatch_matches, matches_addr_regex in E.
    split; [assumption|now apply location_bucket_address].
  - right. assert (N : ~ is_address loc).
    { intros H. apply matches_addr_regex, fullmatch_matches in H. congruence. }
    split; [assumption|now apply location_bucket_other].
Qed.
End Buckets.

Lemma addr_letter_spec (c : codepoint) :
  addr_letter c = true
  <-> (0x41 <= c <= 0x5A)%N \/ In c (utf8 "ÁČĎÉĚÍŇÓŘŠŤÚŮÝŽ").
Proof.
  unfold addr_letter.
  rewrite orb_true_iff, andb_true_iff, !N.leb_le, existsb_exists. split.
  - intros [H|(x & Hx & E)]; [now left|]. apply N.eqb_eq in E. subst. now right.
  - intros [H|H]; [now left|]. right. exists c. split; [assumption|apply N.eqb_refl].
Qed.

(** The decimal digits of a database include the ASCII ones. *)
Definition ascii_digits_decimal (U : UCD) : Prop :=
  forall c, (0x30 <= c <= 0x39)%N -> is_decimal c = true.

Lemma czech_ucd_digits : ascii_digits_decimal czech_ucd.
Proof.
  intros c Hc. unfold is_decimal, czech_ucd.
  apply andb_true_iff. rewrite !N.leb_le. lia.
Qed.

(** C9 (amended).  Bucketing runs on the trimmed raw location text.  A
    location of the form letter, dash, digits, dash, digits, dash, digits
    whose letter is an upper-case letter A to Z or one of the upper-case
    Czech letters of the pattern maps to the constant bucket label (so
    F-9-1-1 does); every other location text is its own bucket (so DOCK A
    is). *)
Theorem C9_location_bucket :
  forall (U : UCD) (C : Conv), ascii_digits_decimal U ->
    (forall loc : str,
        (is_address loc /\ location_bucket loc = bucket_label)
        \/ (~ is_address loc /\ location_bucket loc = loc))
    /\ (forall c : codepoint,
           addr_letter c = true
           <-> (0x41 <= c <= 0x5A)%N \/ In c (utf8 "ÁČĎÉĚÍŇÓŘŠŤÚŮÝŽ"))
    /\ location_bucket (utf8 "F-9-1-1") = bucket_label
    /\ location_bucket (utf8 "DOCK A") = utf8 "DOCK A"
    /\ (forall raw : RawRow,
           Location (enrich_row raw) = clean_text (Misto raw)
           /\ LocationBucket (enrich_row raw) = location_bucket (clean_text (Misto raw))).
Proof.
  intros U C HD. split; [|split; [|split; [|split]]].
  - apply location_bucket_cases.
  - apply addr_letter_spec.
  - apply location_bucket_address.
    exists 0x46%N, (utf8 "9"), (utf8 "1"), (utf8 "1").
    assert (D : forall c, (0x30 <= c <= 0x39)%N -> run_of is_decimal [c]).
    { intros c Hc. split; [discriminate|]. constructor; [now apply HD|constructor]. }
    split; [reflexivity|]. split; [reflexivity|].
    split; [apply (D 0x39%N)|split; apply (D 0x31%N)]; lia.
  - reflexivity.
  - intros raw. split; reflexivity.
Qed.

Definition location_bucket_cz : str -> str := location_bucket (U := czech_ucd).

Lemma C9_location_bucket_witness :
  ascii_digits_decimal czech_ucd
  /\ location_bucket_cz (utf8 "Ž-12-3-45") = bucket_label.
Proof.
  split; [exact czech_ucd_digits|].
  destruct (proj1 (@C9_location_bucket czech_ucd plain_conv czech_ucd_digits)
                  (utf8 "Ž-12-3-45")) as [[_ E]|[N _]].
  - exact E.
  - exfalso. apply N.
    exists 0x17D%N, (utf8 "12"), (utf8 "3"), (utf8 "45").
    split; [reflexivity|]. split; [reflexivity|].
    repeat split; try discriminate; repeat constructor.
Defined.

(** The claim as stated fails: a lower-case Latin letter in front of the
    three numbers is not in the class of the pattern, and the location stays
    its own bucket. *)
Lemma C9_counterexample_lowercase :
  location_bucket_cz (utf8 "f-9-1-1") = utf8 "f-9-1-1"
  /\ location_bucket_cz (utf8 "f-9-1-1") <> bucket_label.
Proof. split; [reflexivity|vm_compute; discriminate]. Qed.

(* ------------------------------------------------------------------ *)
(** ** Keys, groups and merges *)

(** A key order is lawful when comparing equal means being equal. *)
Class KeyOk (K : Type) {HK : Key K} : Prop :=
  { key_compare_eq : forall a b : K, key_compare a b = Eq <-> a = b }.
Arguments KeyOk K {HK}.

#[global] Instance KeyOk_date : KeyOk date.
Proof. constructor. intros a b. apply Z.compare_eq_iff. Qed.

#[global] Instance KeyOk_str : KeyOk str.
Proof. constructor. apply str_compare_eq. Qed.

#[global] Instance KeyOk_option {K} `{KeyOk K} : KeyOk (option K).
Proof.
  constructor. intros [a|] [b|]; simpl; split; try discriminate; auto.
  - intros E. apply key_compare_eq in E. now subst.
  - intros E. injection E as ->. now apply key_compare_eq.
Qed.

#[global] Instance KeyOk_pair {A B} `{KeyOk A} `{KeyOk B} : KeyOk (A * B).
Proof.
  constructor. intros [a1 b1] [a2 b2]; simpl. split.
  - destruct (key_compare a1 a2) eqn:E; try discriminate.
    apply key_compare_eq in E. intros E2. apply key_compare_eq in E2. now subst.
  - intros E. injection E as -> ->.
    rewrite (proj2 (key_compare_eq a2 a2) eq_refl). now apply key_compare_eq.
Qed.

Lemma existsb_same {A} (p : A -> bool) (l1 l2 : list A) :
  (forall x, In x l1 <-> In x l2) -> existsb p l1 = existsb p l2.
Proof.
  intros H. destruct (existsb p l2) eqn:E.
  - apply existsb_exists in E. destruct E as (x & Hx & Px).
    apply existsb_exists. exists x. split; [now apply H|assumption].
  - destruct (existsb p l1) eqn:E1; [|reflexivity].
    apply existsb_exists in E1. destruct E1 as (x & Hx & Px).
    assert (E2 : existsb p l2 = true)
      by (apply existsb_exists; exists x; split; [now apply H|assumption]).
    congruence.
Qed.

Lemma filter_filter {A} (p q : A -> bool) (l : list A) :
  filter p (filter q l) = filter (fun x => q x && p x) l.
Proof.
  induction l as [|x l IH]; simpl; [reflexivity|].
  destruct (q x); simpl; [|exact IH]. destruct (p x); now rewrite IH.
Qed.

Section KeyFacts.
Context {K : Type} `{KeyOk K}.

Lemma key_eqb_eq (a b : K) : key_eqb a b = true <-> a = b.
Proof.
  unfold key_eqb. rewrite <- key_compare_eq.
  destruct (key_compare a b); split; congruence.
Qed.

Lemma key_eqb_refl (a : K) : key_eqb a a = true.
Proof. now apply key_eqb_eq. Qed.

Lemma key_eqb_sym (a b : K) : key_eqb a b = key_eqb b a.
Proof.
  destruct (key_eqb a b) eqn:E1, (key_eqb b a) eqn:E2; try reflexivity.
  - apply key_eqb_eq in E1. subst. now rewrite key_eqb_refl in E2.
  - apply key_eqb_eq in E2. subst. now rewrite key_eqb_refl in E1.
Qed.

Lemma In_insert_key (x k : K) (l : list K) :
  In x (insert_key k l) <-> x = k \/ In x l.
Proof.
  induction l as [|h t IH]; simpl.
  - intuition.
  - destruct (key_compare k h); simpl; rewrite ?IH; intuition.
Qed.

Lemma In_sort_keys (x : K) (l : list K) : In x (sort_keys l) <-> In x l.
Proof.
  induction l as [|h t IH]; simpl; [reflexivity|].
  rewrite In_insert_key, IH. intuition.
Qed.

Lemma In_unique (x : K) (l : list K) : In x (unique l) <-> In x l.
Proof.
  induction l as [|h t IH]; simpl; [reflexivity|].
  rewrite filter_In, IH. split.
  - intuition.
  - intros [->|Hx]; [now left|].
    destruct (key_eqb x h) eqn:E.
    + apply key_eqb_eq in E. now left.
    + right. now split.
Qed.

Lemma NoDup_unique (l : list K) : NoDup (unique l).
Proof.
  induction l as [|h t IH]; simpl; constructor.
  - rewrite filter_In. intros [_ E]. now rewrite key_eqb_refl in E.
  - now apply NoDup_filter.
Qed.

Lemma NoDup_insert_key (k : K) (l : list K) :
  ~ In k l -> NoDup l -> NoDup (insert_key k l).
Proof.
  induction l as [|h t IH]; simpl; intros Hk Hl.
  - constructor; [intros []|constructor].
  - inversion Hl; subst.
    destruct (key_compare k h); try (constructor; [simpl; tauto|assumption]).
    constructor.
    + rewrite In_insert_key. intros [->|Hh]; [tauto|contradiction].
    + apply IH; [tauto|assumption].
Qed.

Lemma NoDup_sort_keys (l : list K) : NoDup l -> NoDup (sort_keys l).
Proof.
  induction 1 as [|h t Hh Ht IH]; simpl; [constructor|].
  apply NoDup_insert_key; [now rewrite In_sort_keys|exact IH].
Qed.


Lemma existsb_key_sorted_unique (k : K) (l : list K) :
  existsb (key_eqb k) (sort_keys (unique l)) = existsb (key_eqb k) l.
Proof.
  apply existsb_same. intros x. now rewrite In_sort_keys, In_unique.
Qed.

(** Reading a table that was built key by key. *)
Lemma lookup_keyed {V} (f : K -> V) (keys : list K) (k : K) :
  lookup k (map (fun k' => (k', f k')) keys)
  = if existsb (key_eqb k) keys then Some (f k) else None.
Proof.
  induction keys as [|h t IH]; simpl; [reflexivity|].
  destruct (key_eqb k h) eqn:E; simpl; [|exact IH].
  apply key_eqb_eq in E. now subst.
Qed.

Lemma lookup_map_values {V W} (h : V -> W) (t : table K V) (k : K) :
  lookup k (map (fun kv => (fst kv, h (snd kv))) t) = option_map h (lookup k t).
Proof.
  induction t as [|[k' v] t IH]; simpl; [reflexivity|].
  destruct (key_eqb k k'); [reflexivity|exact IH].
Qed.

Lemma lookup_has_key {V} (t : table K V) (k : K) :
  existsb (key_eqb k) (map fst t) = negb (isna (lookup k t)).
Proof.
  induction t as [|[k' v] t IH]; simpl; [reflexivity|].
  destruct (key_eqb k k'); [reflexivity|exact IH].
Qed.

Lemma lookup_In {V} (t : table K V) (k : K) (v : V) :
  lookup k t = Some v -> In (k, v) t.
Proof.
  induction t as [|[k' w] t IH]; simpl; [discriminate|].
  destruct (key_eqb k k') eqn:E.
  - apply key_eqb_eq in E. intros E'. injection E' as ->. subst. now left.
  - intros E'. right. now apply IH.
Qed.

(** The rows a group holds. *)
Definition in_group {R} (by_cols : R -> K) (k : K) (r : R) : bool :=
  key_eqb (by_cols r) k.

Lemma existsb_key_map {R} (by_cols : R -> K) (rows : list R) (k : K) :
  existsb (key_eqb k) (map by_cols rows) = existsb (in_group by_cols k) rows.
Proof.
  induction rows as [|r rows IH]; simpl; [reflexivity|].
  unfold in_group at 1. now rewrite IH, key_eqb_sym.
Qed.

Lemma groupby_lookup {R} (by_cols : R -> K) (rows : list R) (k : K) :
  lookup k (groupby by_cols rows)
  = if existsb (in_group by_cols k) rows
    then Some (filter (in_group by_cols k) rows) else None.
Proof.
  unfold groupby.
  rewrite (lookup_keyed (fun k => filter (fun r => key_eqb (by_cols r) k) rows)).
  now rewrite existsb_key_sorted_unique, existsb_key_map.
Qed.

Lemma groupby_keys {R} (by_cols : R -> K) (rows : list R) :
  map fst (groupby by_cols rows) = sort_keys (unique (map by_cols rows)).
Proof. unfold groupby. rewrite map_map. simpl. apply map_id. Qed.

Lemma groupby_NoDup {R} (by_cols : R -> K) (rows : list R) :
  NoDup (map fst (groupby by_cols rows)).
Proof. rewrite groupby_keys. apply NoDup_sort_keys, NoDup_unique. Qed.

(** The rows a metric sums for one key. *)
Definition selected (mask_col : Row -> bool) (by_cols : Row -> K) (k : K)
           (r : Row) : bool :=
  mask_col r && in_group by_cols k r.

Lemma agg_metric_lookup (df_in : list Row) (mask_col : Row -> bool)
      (value_col : Row -> Q) (by_cols : Row -> K) (k : K) :
  lookup k (agg_metric df_in mask_col value_col by_cols)
  = if existsb (selected mask_col by_cols k) df_in
    then Some (sumQ (map value_col (filter (selected mask_col by_cols k) df_in)))
    else None.
Proof.
  unfold agg_metric.
  rewrite (lookup_map_values (fun g => sumQ (map value_col g))), groupby_lookup.
  rewrite filter_filter.
  replace (existsb (in_group by_cols k) (filter mask_col df_in))
    with (existsb (selected mask_col by_cols k) df_in).
  - destruct (existsb _ df_in); reflexivity.
  - induction df_in as [|r l IH]; simpl; [reflexivity|].
    unfold selected at 1. destruct (mask_col r); simpl; now rewrite IH.
Qed.

Lemma agg_metric_keys (df_in : list Row) (mask_col : Row -> bool)
      (value_col : Row -> Q) (by_cols : Row -> K) :
  NoDup (map fst (agg_metric df_in mask_col value_col by_cols)).
Proof.
  unfold agg_metric. rewrite map_map. simpl.
  change (fun x : K * list Row => fst x) with (@fst K (list Row)).
  apply groupby_NoDup.
Qed.

Lemma merge_outer_lookup {A B} (a : table K A) (b : table K B) (k : K) :
  lookup k (merge_outer a b)
  = match lookup k a, lookup k b with
    | None, None => None
    | x, y => Some (x, y)
    end.
Proof.
  unfold merge_outer.
  rewrite (lookup_keyed (fun k => (lookup k a, lookup k b))).
  rewrite existsb_key_sorted_unique, existsb_app, !lookup_has_key.
  destruct (lookup k a), (lookup k b); reflexivity.
Qed.

End KeyFacts.

(** ** The metric tables *)

(** A row that one of the three summed metrics selects. *)
Definition counted (r : Row) : bool := is_prijem r || is_expedice r || is_tonovani r.

Lemma filter_none {A} (p : A -> bool) (l : list A) :
  existsb p l = false -> filter p l = [].
Proof.
  induction l as [|x l IH]; simpl; [reflexivity|].
  destruct (p x); simpl; [discriminate|exact IH].
Qed.

Lemma existsb_orb {A} (p q : A -> bool) (l : list A) :
  existsb (fun x => p x || q x) l = existsb p l || existsb q l.
Proof.
  induction l as [|x l IH]; simpl; [reflexivity|].
  rewrite IH. destruct (p x), (q x), (existsb p l), (existsb q l); reflexivity.
Qed.

Lemma existsb_pointwise {A} (p q : A -> bool) (l : list A) :
  (forall x, p x = q x) -> existsb p l = existsb q l.
Proof.
  intros E. induction l as [|x l IH]; simpl; [reflexivity|]. now rewrite E, IH.
Qed.

Section MetricFacts.
Context {K : Type} `{KeyOk K}.
Variable df_f : list Row.
Variable by_cols : Row -> K.

(** What a metric sums for key [k]. *)
Definition sum_for (mask_col : Row -> bool) (value_col : Row -> Q) (k : K) : Q :=
  sumQ (map value_col (filter (selected mask_col by_cols k) df_f)).

Lemma fillna_agg_metric (mask_col : Row -> bool) (value_col : Row -> Q) (k : K) :
  fillna 0 (lookup k (agg_metric df_f mask_col value_col by_cols))
  = sum_for mask_col value_col k.
Proof.
  rewrite agg_metric_lookup. unfold sum_for.
  destruct (existsb _ df_f) eqn:E; simpl; [reflexivity|].
  now rewrite (filter_none _ _ E).
Qed.

Lemma existsb_counted (k : K) :
  existsb (selected counted by_cols k) df_f
  = existsb (selected is_prijem by_cols k) df_f
    || existsb (selected is_expedice by_cols k) df_f
    || existsb (selected is_tonovani by_cols k) df_f.
Proof.
  rewrite <- !existsb_orb. apply existsb_pointwise. intros r.
  unfold selected, counted.
  destruct (is_prijem r), (is_expedice r), (is_tonovani r), (in_group by_cols k r);
    reflexivity.
Qed.

Lemma merged_metrics_lookup (k : K) :
  lookup k (merged_metrics df_f by_cols)
  = if existsb (selected counted by_cols k) df_f
    then Some {| Prijem := sum_for is_prijem EffectiveQty_STis1 k;
                 Expedice := sum_for is_expedice EffectiveQty_STis1 k;
                 Tonovani := sum_for is_tonovani SkpQty k |}
    else None.
Proof.
  unfold merged_metrics.
  rewrite (lookup_map_values fillna_metrics), !merge_outer_lookup.
  rewrite existsb_counted.
  rewrite <- (fillna_agg_metric is_prijem), <- (fillna_agg_metric is_expedice),
    <- (fillna_agg_metric is_tonovani).
  rewrite !agg_metric_lookup.
  destruct (existsb (selected is_prijem by_cols k) df_f),
    (existsb (selected is_expedice by_cols k) df_f),
    (existsb (selected is_tonovani by_cols k) df_f); reflexivity.
Qed.

End MetricFacts.

Lemma den_user_lookup (df_f : list Row) (k : option date * str) :
  lookup k (den_user df_f)
  = option_map (fun m => {| values := m; Celkem_bez_Transfery := row_sum m |})
               (lookup k (merged_metrics df_f gcols)).
Proof.
  unfold den_user.
  apply (lookup_map_values
           (fun m => {| values := m; Celkem_bez_Transfery := row_sum m |})).
Qed.




(* ------------------------------------------------------------------ *)
(** ** Enrichment, row by row *)

Lemma map_seq_from {A B} (F : A -> B) (G : nat -> B) (d : A) (l : list A) (s : nat) :
  (forall i, (i < List.length l)%nat -> G (s + i)%nat = F (nth i l d)) ->
  map G (seq s (List.length l)) = map F l.
Proof.
  revert s. induction l as [|a l IH]; intros s HG; simpl; [reflexivity|]. f_equal.
  - transitivity (G (s + 0)%nat); [f_equal; lia|]. apply (HG 0%nat). simpl. lia.
  - apply IH. intros i Hi.
    transitivity (G (s + S i)%nat); [f_equal; lia|]. apply (HG (S i)). simpl. lia.
Qed.

Lemma map_seq_nth {A B} (F : A -> B) (G : nat -> B) (d : A) (l : list A) :
  (forall i, (i < List.length l)%nat -> G i = F (nth i l d)) ->
  map G (seq 0 (List.length l)) = map F l.
Proof. intros HG. apply (map_seq_from F G d l 0). exact HG. Qed.

Lemma nth_map_lt {A B} (f : A -> B) (l : list A) (i : nat) (d : B) (d' : A) :
  (i < List.length l)%nat -> nth i (map f l) d = f (nth i l d').
Proof.
  intros Hi. rewrite (nth_indep (map f l) d (f d')) by now rewrite length_map.
  apply map_nth.
Qed.

Lemma nth_map2_lt {A B C} (f : A -> B -> C) (l1 : list A) (l2 : list B)
      (i : nat) (d : C) (d1 : A) (d2 : B) :
  (i < List.length l1)%nat -> (i < List.length l2)%nat ->
  nth i (map2 f l1 l2) d = f (nth i l1 d1) (nth i l2 d2).
Proof.
  revert l2 i. induction l1 as [|a l1 IH]; intros [|b l2] [|i]; simpl;
    intros H1 H2; try lia; [reflexivity|]. apply IH; lia.
Qed.

Definition has_day (r : Row) : bool := negb (isna (Den r)).

(** The cell of column [c] in a row of cells. *)
Definition cell_of (df : DataFrame) (c : str) (r : list cell) : cell :=
  nth (column_index c (columns df)) r NA.

Section EnrichmentFacts.
Context {U : UCD} {C : Conv}.

Lemma getcol_length (df : DataFrame) (c : str) :
  List.length (getcol df c) = List.length (data df).
Proof. unfold getcol. apply length_map. Qed.

(** A column computed value by value, read at a row. *)
Lemma nth_col {B} (f : cell -> B) (df : DataFrame) (c : str) (i : nat) (d : B) :
  (i < List.length (data df))%nat ->
  nth i (map f (getcol df c)) d = f (cell_of df c (nth i (data df) [])).
Proof.
  intros Hi. rewrite (nth_map_lt f _ d NA) by now rewrite getcol_length.
  unfold getcol. now rewrite (nth_map_lt _ _ NA []).
Qed.

Lemma nth_col2 {A B D} (g : A -> B -> D) (f1 : cell -> A) (f2 : cell -> B)
      (df : DataFrame) (c1 c2 : str) (i : nat) (d : D) :
  (i < List.length (data df))%nat ->
  nth i (map2 g (map f1 (getcol df c1)) (map f2 (getcol df c2))) d
  = g (f1 (cell_of df c1 (nth i (data df) [])))
      (f2 (cell_of df c2 (nth i (data df) []))).
Proof.
  intros Hi.
  rewrite (nth_map2_lt g _ _ d (f1 NA) (f2 NA))
    by now rewrite length_map, getcol_length.
  now rewrite !nth_col.
Qed.

(** What [add_computed_columns] returns: the missing-columns error when
    a required column is absent; else the error of the date conversion
    when the date column holds a text; else the enriched rows that have
    a day, in the order of the input. *)
Theorem add_computed_columns_outcome (df : DataFrame) :
  add_computed_columns df
  = match ensure_columns df required_cols with
    | Raise e => Raise e
    | Ok _ =>
        if existsb is_text (getcol df (utf8 "Uzavřená práce"))
        then Raise OriginNeedsNumeric
        else Ok (filter has_day (map enrich_row (raw_rows df)))
    end.
Proof.
  unfold add_computed_columns, bind.
  destruct (ensure_columns df required_cols) as [[]|e]; [|reflexivity].
  unfold to_excel_date_series.
  destruct (existsb is_text (getcol df (utf8 "Uzavřená práce"))); [reflexivity|].
  f_equal. unfold raw_rows. rewrite (map_map (raw_row (columns df)) enrich_row).
  f_equal. apply (map_seq_nth _ _ []). intros i Hi.
  unfold normalize_str_series, enrich_row, raw_row.
  cbn [Typ_prace ID_pracovni_tridy Mnozstvi_prace Jednotka Uzavrena_prace
       ID_uzivatele C_polozky Misto].
  rewrite !(nth_map_lt location_bucket _ [] []) by now rewrite length_map, getcol_length.
  rewrite !nth_col2, !nth_col by assumption.
  reflexivity.
Qed.
End EnrichmentFacts.

(** ** Required columns *)

Definition absent (df : DataFrame) (c : str) : bool := negb (str_in c (columns df)).

Lemma absent_spec (df : DataFrame) (c : str) :
  absent df c = true <-> ~ In c (columns df).
Proof.
  unfold absent. rewrite negb_true_iff. split.
  - intros E Hc. apply str_in_In in Hc. congruence.
  - intros N. destruct (str_in c (columns df)) eqn:E; [|reflexivity].
    apply str_in_In in E. contradiction.
Qed.

(** [ensure_columns] fails exactly when a required column is absent, and
    the error then lists every absent required column, in the order of
    [required]. *)
Lemma ensure_columns_spec (df : DataFrame) (required : list str) :
  match ensure_columns df required with
  | Ok _ => forall c, In c required -> In c (columns df)
  | Raise e =>
      e = MissingColumns (filter (absent df) required)
      /\ (exists c, In c required /\ ~ In c (columns df))
      /\ (forall c, In c (filter (absent df) required)
                    <-> In c required /\ ~ In c (columns df))
  end.
Proof.
  unfold ensure_columns. fold (absent df).
  destruct (filter (absent df) required) as [|m ms] eqn:E.
  - intros c Hc. destruct (absent df c) eqn:A.
    + assert (Hin : In c (filter (absent df) required)) by now apply filter_In.
      rewrite E in Hin. destruct Hin.
    + destruct (str_in c (columns df)) eqn:S.
      * now apply str_in_In.
      * unfold absent in A. rewrite S in A. discriminate.
  - rewrite <- E. split; [reflexivity|]. split.
    + assert (Hin : In m (filter (absent df) required)) by (rewrite E; now left).
      apply filter_In in Hin. destruct Hin as [Hm A].
      exists m. split; [assumption|now apply absent_spec].
    + intros c. rewrite filter_In, absent_spec. reflexivity.
Qed.

Section FailureModes.
Context {U : UCD} {C : Conv}.

Lemma add_computed_columns_missing (df : DataFrame) :
  (exists c, In c required_cols /\ ~ In c (columns df)) ->
  add_computed_columns df = Raise (MissingColumns (filter (absent df) required_cols)).
Proof.
  intros (c & Hc & N). rewrite add_computed_columns_outcome.
  pose proof (ensure_columns_spec df required_cols) as S.
  destruct (ensure_columns df required_cols) as [[]|e].
  - exfalso. apply N, S, Hc.
  - destruct S as [-> _]. reflexivity.
Qed.

Lemma add_computed_columns_numeric (df : DataFrame) :
  (forall c, In c required_cols -> In c (columns df)) ->
  existsb is_text (getcol df (utf8 "Uzavřená práce")) = false ->
  add_computed_columns df = Ok (filter has_day (map enrich_row (raw_rows df))).
Proof.
  intros Hall Hnum. rewrite add_computed_columns_outcome.
  pose proof (ensure_columns_spec df required_cols) as S.
  destruct (ensure_columns df required_cols) as [[]|e].
  - now rewrite Hnum.
  - destruct S as (_ & (c & Hc & N) & _). exfalso. apply N, Hall, Hc.
Qed.

Lemma add_computed_columns_text_date (df : DataFrame) :
  (forall c, In c required_cols -> In c (columns df)) ->
  existsb is_text (getcol df (utf8 "Uzavřená práce")) = true ->
  add_computed_columns df = Raise OriginNeedsNumeric.
Proof.
  intros Hall Htxt. rewrite add_computed_columns_outcome.
  pose proof (ensure_columns_spec df required_cols) as S.
  destruct (ensure_columns df required_cols) as [[]|e].
  - now rewrite Htxt.
  - destruct S as (_ & (c & Hc & N) & _). exfalso. apply N, Hall, Hc.
Qed.

Lemma add_computed_columns_rows (df : DataFrame) (out : list Row) :
  add_computed_columns df = Ok out ->
  out = filter has_day (map enrich_row (raw_rows df)).
Proof.
  rewrite add_computed_columns_outcome.
  destruct (ensure_columns df required_cols); [|discriminate].
  destruct (existsb is_text _); [discriminate|]. congruence.
Qed.

Lemma add_computed_columns_In (df : DataFrame) (out : list Row) (r : Row) :
  add_computed_columns df = Ok out -> In r out ->
  exists raw, In raw (raw_rows df) /\ r = enrich_row raw /\ Den r <> None.
Proof.
  intros E Hr. apply add_computed_columns_rows in E. subst out.
  apply filter_In in Hr. destruct Hr as [Hr Hd].
  apply in_map_iff in Hr. destruct Hr as (raw & <- & Hraw).
  exists raw. repeat split; try assumption.
  unfold has_day in Hd. intros N. rewrite N in Hd. discriminate.
Qed.
End FailureModes.

(* ------------------------------------------------------------------ *)
(** ** Sample tables *)

Definition txt (s : string) : cell := Text (utf8 s).

(** Work type, work class, quantity, unit, closing date, user, item, place. *)
Definition df_sample : DataFrame :=
  {| columns := required_cols;
     data :=
       [ [txt "Vložit"; txt "Nákup"; Num 5; txt "st"; Num 1; txt "u1"; txt "B"; txt "F-9-1-1"];
         [txt "Vydat"; NA; Num 10; txt "PAL"; Num (3 # 2); txt "u1"; txt "A"; txt "DOCK A"];
         [txt "Vložit"; txt "Výroba"; Num 2; txt "pal"; Num 1; txt "u1"; txt "A"; txt "x"];
         [txt "Vložit"; NA; Num 1000; txt "ks"; Num 1; txt "u2"; txt "A"; txt "F-9-1-1"];
         [txt "Vložit"; txt "Nákup"; txt "abc"; txt "ST"; NA; txt "u1"; txt "B"; txt "F-9-1-1"];
         [txt "Vydat"; txt "Prodej"; txt "abc"; txt "ST"; Num 2; txt "u2"; txt "C"; txt "F-9-1-1"] ] |}.

Definition add_computed_columns_cz : DataFrame -> result (list Row) :=
  add_computed_columns (U := czech_ucd) (C := plain_conv).

Definition rows_of {A} (r : result (list A)) : list A :=
  match r with Ok l => l | Raise _ => [] end.

Definition out_sample : list Row := rows_of (add_computed_columns_cz df_sample).

(** All eight required columns, and a text where the closing date should be. *)
Definition df_text_date : DataFrame :=
  {| columns := required_cols;
     data :=
       [ [txt "Vložit"; txt "Nákup"; Num 5; txt "ST"; txt "abc"; txt "u1"; txt "A"; txt "F-9-1-1"] ] |}.

Lemma sample_enriched : add_computed_columns_cz df_sample = Ok out_sample.
Proof. reflexivity. Qed.

(** C5.  The enrichment at a table that has every required column and a
    text in the closing-date column: no column is missing, yet the date
    conversion raises. *)
Theorem C5_text_date_raises :
  (forall c, In c required_cols -> In c (columns df_text_date))
  /\ ensure_columns df_text_date required_cols = Ok tt
  /\ add_computed_columns_cz df_text_date = Raise OriginNeedsNumeric.
Proof.
  split; [intros c Hc; exact Hc|]. split; reflexivity.
Qed.

(** ** Which keys a table has *)

Section TableKeys.
Context {K : Type} `{KeyOk K}.



End TableKeys.





(** ** Days *)




Definition no_filter : FilterSelection :=
  {| date_range := None; sel_users := []; sku_query := [] |}.


(** ** Quantities *)

Lemma pal_times_24_spec (unit : str) (qty : Q) :
  (unit = utf8 "PAL" -> pal_times_24 unit qty = qty * 24)
  /\ (unit <> utf8 "PAL" -> pal_times_24 unit qty = qty).
Proof.
  unfold pal_times_24. split.
  - intros ->. reflexivity.
  - intros N. apply str_eqb_neq in N. now rewrite N.
Qed.

Lemma st_is_1_spec (unit : str) (qty : Q) :
  (unit = utf8 "ST" -> st_is_1 unit qty = 1)
  /\ (unit <> utf8 "ST" -> st_is_1 unit qty = qty).
Proof.
  unfold st_is_1. split.
  - intros ->. reflexivity.
  - intros N. apply str_eqb_neq in N. now rewrite N.
Qed.

(** C8.  In every row of the enriched table, the quantity is the number
    parsed from the quantity cell of its input row (zero when there is
    none), and the pallet-expanded quantity is that quantity times 24 when
    the normalised unit is PAL and the quantity itself for every other
    unit. *)
Theorem C8_pallet_expansion :
  forall (U : UCD) (C : Conv) (df : DataFrame) (out : list Row) (r : Row),
    add_computed_columns df = Ok out -> In r out ->
    exists raw : RawRow,
      In raw (raw_rows df)
      /\ Unit_n r = normalize_str (Jednotka raw)
      /\ Qty r = fillna 0 (to_numeric (Mnozstvi_prace raw))
      /\ (Unit_n r = utf8 "PAL" -> SkpQty r = Qty r * 24)
      /\ (Unit_n r <> utf8 "PAL" -> SkpQty r = Qty r).
Proof.
  intros U C df out r E Hr.
  destruct (@add_computed_columns_In U C df out r E Hr) as (raw & Hraw & -> & _).
  exists raw. split; [assumption|]. split; [reflexivity|]. split; [reflexivity|].
  apply pal_times_24_spec.
Qed.

Lemma C8_pallet_expansion_witness :
  add_computed_columns_cz df_sample = Ok out_sample
  /\ (forall r, In r out_sample ->
        Unit_n r = utf8 "PAL" -> SkpQty r = Qty r * 24).
Proof.
  split; [exact sample_enriched|]. intros r Hr.
  destruct (@C8_pallet_expansion czech_ucd plain_conv df_sample out_sample r
              sample_enriched Hr) as (raw & _ & _ & _ & H & _).
  exact H.
Defined.

(** ** Sums *)

Lemma sumQ_app (a b : list Q) : sumQ (a ++ b) == sumQ a + sumQ b.
Proof.
  induction a as [|x a IH]; simpl.
  - now rewrite Qplus_0_l.
  - rewrite IH. now rewrite Qplus_assoc.
Qed.

(** A selected row adds its value to the sum of its key. *)
Lemma sumQ_selected {A} (p : A -> bool) (val : A -> Q) (pre post : list A) (r : A) :
  p r = true ->
  sumQ (map val (filter p (pre ++ r :: post)))
  == val r + sumQ (map val (filter p (pre ++ post))).
Proof.
  intros Hp. rewrite !filter_app, !map_app, !sumQ_app. simpl. rewrite Hp. simpl.
  ring.
Qed.

(** C10.  A row whose normalised unit is ST has the piece-rule quantity 1,
    also when its quantity cell could not be parsed and its quantity is
    therefore 0; wherever such a row stands in the filtered table, it adds 1
    to the Prijem sum of its day and user when it is inbound, and 1 to the
    Expedice sum when it is outbound. *)
Theorem C10_piece_unit_overrides_zero :
  forall (U : UCD) (C : Conv) (raw : RawRow),
    normalize_str (Jednotka raw) = utf8 "ST" ->
    EffectiveQty_STis1 (enrich_row raw) = 1
    /\ (to_numeric (Mnozstvi_prace raw) = None ->
        Qty (enrich_row raw) = 0 /\ EffectiveQty_STis1 (enrich_row raw) = 1)
    /\ (forall pre post : list Row,
           is_prijem (enrich_row raw) = true ->
           exists v, lookup (gcols (enrich_row raw))
                            (den_user (pre ++ enrich_row raw :: post)) = Some v
                     /\ Prijem v
                        == 1 + sumQ (map EffectiveQty_STis1
                                       (filter (fun r => is_prijem r
                                                         && key_eqb (gcols r) (gcols (enrich_row raw)))
                                               (pre ++ post))))
    /\ (forall pre post : list Row,
           is_expedice (enrich_row raw) = true ->
           exists v, lookup (gcols (enrich_row raw))
                            (den_user (pre ++ enrich_row raw :: post)) = Some v
                     /\ Expedice v
                        == 1 + sumQ (map EffectiveQty_STis1
                                       (filter (fun r => is_expedice r
                                                         && key_eqb (gcols r) (gcols (enrich_row raw)))
                                               (pre ++ post)))).
Proof.
  intros U C raw HST.
  assert (E1 : EffectiveQty_STis1 (enrich_row raw) = 1).
  { simpl. now apply st_is_1_spec. }
  split; [exact E1|]. split.
  { intros N. split; [|exact E1]. simpl. now rewrite N. }
  set (r := enrich_row raw) in *.
  assert (L : forall mask pre post, mask r = true ->
                (mask r = true -> counted r = true) ->
                existsb (selected counted gcols (gcols r)) (pre ++ r :: post) = true).
  { intros mask pre post Hm Hc. apply existsb_exists. exists r. split.
    - apply in_or_app. right. now left.
    - unfold selected, in_group. now rewrite (Hc Hm), key_eqb_refl. }
  split; intros pre post Hm.
  - rewrite den_user_lookup, merged_metrics_lookup.
    rewrite (L is_prijem pre post Hm)
      by (intros H; unfold counted; now rewrite H).
    simpl. eexists. split; [reflexivity|]. simpl. unfold sum_for.
    rewrite (sumQ_selected (selected is_prijem gcols (gcols r)) EffectiveQty_STis1).
    + now rewrite E1.
    + unfold selected, in_group. now rewrite Hm, key_eqb_refl.
  - rewrite den_user_lookup, merged_metrics_lookup.
    rewrite (L is_expedice pre post Hm)
      by (intros H; unfold counted; rewrite H; now rewrite orb_true_r).
    simpl. eexists. split; [reflexivity|]. simpl. unfold sum_for.
    rewrite (sumQ_selected (selected is_expedice gcols (gcols r)) EffectiveQty_STis1).
    + now rewrite E1.
    + unfold selected, in_group. now rewrite Hm, key_eqb_refl.
Qed.

Definition raw_st_unparseable : RawRow :=
  {| Typ_prace := txt "Vydat"; ID_pracovni_tridy := txt "Prodej";
     Mnozstvi_prace := txt "abc"; Jednotka := txt "st";
     Uzavrena_prace := Num 2; ID_uzivatele := txt "u2";
     C_polozky := txt "C"; Misto := txt "F-9-1-1" |}.

Lemma C10_piece_unit_overrides_zero_witness :
  normalize_cz (Jednotka raw_st_unparseable) = utf8 "ST"
  /\ to_numeric (C := plain_conv) (Mnozstvi_prace raw_st_unparseable) = None
  /\ Qty (enrich_row (U := czech_ucd) (C := plain_conv) raw_st_unparseable) = 0
  /\ EffectiveQty_STis1
       (enrich_row (U := czech_ucd) (C := plain_conv) raw_st_unparseable) = 1.
Proof.
  split; [reflexivity|]. split; [reflexivity|].
  exact (proj1 (proj2 (@C10_piece_unit_overrides_zero czech_ucd plain_conv
                         raw_st_unparseable eq_refl)) eq_refl).
Defined.

(* ------------------------------------------------------------------ *)
(** ** Transfers stay out of the sums *)

(** The four result tables of one run. *)
Record Tables := {
  t_den_user : table (option date * str) with_total;
  t_sku_pivot : table (option date * str * str) metrics;
  t_den_totals : table (option date) with_total;
  t_transfer_df : table (option date * str) nat
}.

(** One run: enrich the loaded table, apply the filters, aggregate. *)
Definition run {U : UCD} {C : Conv} (f : FilterSelection) (df_raw : DataFrame)
  : result Tables :=
  df <- add_computed_columns df_raw ;;
  let df_f := apply_filters f df in
  Ok {| t_den_user := den_user df_f;
        t_sku_pivot := sku_pivot df_f;
        t_den_totals := den_totals df_f;
        t_transfer_df := transfer_df df_f |}.

(** Two input rows that agree in every required cell but the quantity. *)
Definition quantity_only_change (a b : RawRow) : Prop :=
  Typ_prace a = Typ_prace b
  /\ ID_pracovni_tridy a = ID_pracovni_tridy b
  /\ Jednotka a = Jednotka b
  /\ Uzavrena_prace a = Uzavrena_prace b
  /\ ID_uzivatele a = ID_uzivatele b
  /\ C_polozky a = C_polozky b
  /\ Misto a = Misto b.

(** ... and differ in the quantity only if the row is flagged a transfer. *)
Definition transfer_quantity_change {U : UCD} {C : Conv} (a b : RawRow) : Prop :=
  quantity_only_change a b
  /\ (Mnozstvi_prace a = Mnozstvi_prace b \/ is_transfer (enrich_row a) = true).

(** Enriched rows that the result tables cannot tell apart. *)
Definition same_for_tables (r1 r2 : Row) : Prop :=
  Den r1 = Den r2 /\ User r1 = User r2 /\ SKU r1 = SKU r2
  /\ LocationBucket r1 = LocationBucket r2
  /\ is_prijem r1 = is_prijem r2 /\ is_expedice r1 = is_expedice r2
  /\ is_tonovani r1 = is_tonovani r2 /\ is_transfer r1 = is_transfer r2
  /\ (counted r1 = true -> r1 = r2).

Lemma same_for_tables_refl (r : Row) : same_for_tables r r.
Proof. unfold same_for_tables. repeat split. Qed.

Lemma Forall2_filter {A} (R : A -> A -> Prop) (p : A -> bool) (l1 l2 : list A) :
  (forall a b, R a b -> p a = p b) ->
  Forall2 R l1 l2 -> Forall2 R (filter p l1) (filter p l2).
Proof.
  intros Hp. induction 1 as [|a b l1 l2 Hab Hl IH]; simpl; [constructor|].
  rewrite <- (Hp a b Hab). destruct (p a); [constructor|]; assumption.
Qed.

Lemma Forall2_filter_eq {A} (R : A -> A -> Prop) (p : A -> bool) (l1 l2 : list A) :
  (forall a b, R a b -> p a = p b) ->
  (forall a b, R a b -> p a = true -> a = b) ->
  Forall2 R l1 l2 -> filter p l1 = filter p l2.
Proof.
  intros Hp He. induction 1 as [|a b l1 l2 Hab Hl IH]; simpl; [reflexivity|].
  rewrite <- (Hp a b Hab). destruct (p a) eqn:E; [|exact IH].
  now rewrite (He a b Hab E), IH.
Qed.

Lemma Forall2_map_eq {A B} (R : A -> A -> Prop) (g : A -> B) (l1 l2 : list A) :
  (forall a b, R a b -> g a = g b) ->
  Forall2 R l1 l2 -> map g l1 = map g l2.
Proof.
  intros Hg. induction 1 as [|a b l1 l2 Hab Hl IH]; simpl; [reflexivity|].
  now rewrite (Hg a b Hab), IH.
Qed.

Lemma Forall2_map {A B} (R : B -> B -> Prop) (g : A -> B) (l1 l2 : list A) :
  Forall2 (fun a b => R (g a) (g b)) l1 l2 -> Forall2 R (map g l1) (map g l2).
Proof. induction 1; simpl; constructor; assumption. Qed.

Lemma Forall2_filter_length {A} (R : A -> A -> Prop) (p : A -> bool) (l1 l2 : list A) :
  (forall a b, R a b -> p a = p b) ->
  Forall2 R l1 l2 -> List.length (filter p l1) = List.length (filter p l2).
Proof.
  intros Hp. induction 1 as [|a b l1 l2 Hab Hl IH]; simpl; [reflexivity|].
  rewrite <- (Hp a b Hab). destruct (p a); simpl; now rewrite IH.
Qed.

Section TransferFacts.
Context {U : UCD} {C : Conv}.

Lemma transfer_not_counted (raw : RawRow) :
  is_transfer (enrich_row raw) = true -> counted (enrich_row raw) = false.
Proof.
  intros Ht. pose proof (enrich_row_one_category raw) as X. cbv zeta in X.
  unfold counted. remember (enrich_row raw) as r. unfold count_true in X.
  rewrite Ht in X.
  destruct (is_prijem r), (is_expedice r), (is_tonovani r); simpl in X;
    try reflexivity; lia.
Qed.

Lemma enrich_row_same_for_tables (a b : RawRow) :
  transfer_quantity_change a b ->
  same_for_tables (enrich_row a) (enrich_row b).
Proof.
  intros [(E1 & E2 & E3 & E4 & E5 & E6 & E7) [Eq|Ht]].
  - assert (E : a = b) by (destruct a, b; simpl in *; congruence).
    subst. apply same_for_tables_refl.
  - unfold same_for_tables.
    cbn [enrich_row Den User SKU Location LocationBucket
         is_prijem is_expedice is_tonovani is_transfer].
    rewrite E1, E2, E4, E5, E6, E7.
    repeat split.
    intros Hc. rewrite (transfer_not_counted a Ht) in Hc. discriminate.
Qed.

Lemma date_column (df : DataFrame) :
  getcol df (utf8 "Uzavřená práce") = map Uzavrena_prace (raw_rows df).
Proof. unfold raw_rows, getcol. now rewrite map_map. Qed.

Lemma filters_same (f : FilterSelection) (r1 r2 : Row) :
  same_for_tables r1 r2 ->
  (mask_range f r1 && mask_user f r1 && mask_sku f r1)
  = (mask_range f r2 && mask_user f r2 && mask_sku f r2).
Proof.
  intros (Ed & Eu & Es & _). unfold mask_range, mask_user, mask_sku.
  now rewrite Ed, Eu, Es.
Qed.
End TransferFacts.

Lemma counted_same (r1 r2 : Row) : same_for_tables r1 r2 -> counted r1 = counted r2.
Proof.
  intros (_ & _ & _ & _ & Ep & Ee & Et & _). unfold counted. now rewrite Ep, Ee, Et.
Qed.

Section SameTables.
Variables l1 l2 : list Row.
Hypothesis Hl : Forall2 same_for_tables l1 l2.

Lemma filter_metric_eq (mask_col : Row -> bool) :
  (forall r1 r2, same_for_tables r1 r2 -> mask_col r1 = mask_col r2) ->
  (forall r, mask_col r = true -> counted r = true) ->
  filter mask_col l1 = filter mask_col l2.
Proof.
  intros Hm Hc. apply Forall2_filter_eq with (R := same_for_tables); try assumption.
  intros a b Hab Ha. apply Hab. now apply Hc.
Qed.

Lemma merged_metrics_eq {K} `{Key K} (by_cols : Row -> K) :
  merged_metrics l1 by_cols = merged_metrics l2 by_cols.
Proof.
  unfold merged_metrics, agg_metric.
  rewrite (filter_metric_eq is_prijem), (filter_metric_eq is_expedice),
    (filter_metric_eq is_tonovani); try reflexivity.
  - intros r1 r2 Hr. apply Hr.
  - intros r Hr. unfold counted. rewrite Hr. now rewrite orb_true_r.
  - intros r1 r2 Hr. apply Hr.
  - intros r Hr. unfold counted. rewrite Hr. now rewrite orb_true_r.
  - intros r1 r2 Hr. apply Hr.
  - intros r Hr. unfold counted. now rewrite Hr.
Qed.

Lemma transfer_df_eq : transfer_df l1 = transfer_df l2.
Proof.
  unfold transfer_df, groupby. rewrite !map_map. simpl.
  assert (Hf : Forall2 same_for_tables (filter is_transfer l1) (filter is_transfer l2)).
  { apply Forall2_filter; [|exact Hl]. intros a b Hab. apply Hab. }
  assert (Hk : forall a b, same_for_tables a b ->
                 (Den a, LocationBucket a) = (Den b, LocationBucket b)).
  { intros a b (Ed & _ & _ & Eb & _). now rewrite Ed, Eb. }
  rewrite (@Forall2_map_eq _ _ same_for_tables
             (fun r => (Den r, LocationBucket r)) _ _ Hk Hf).
  apply map_ext. intros k. f_equal.
  apply Forall2_filter_length with (R := same_for_tables); [|exact Hf].
  intros a b Hab. now rewrite (Hk a b Hab).
Qed.
End SameTables.

(** The transfer table holds, per day and location bucket, the number of
    transfer rows. *)
Lemma transfer_df_lookup (df_f : list Row) (k : option date * str) :
  lookup k (transfer_df df_f)
  = if existsb (fun r => is_transfer r && key_eqb (Den r, LocationBucket r) k) df_f
    then Some (List.length
                 (filter (fun r => is_transfer r && key_eqb (Den r, LocationBucket r) k)
                         df_f))
    else None.
Proof.
  unfold transfer_df.
  rewrite (lookup_map_values (fun g : list Row => List.length g)), groupby_lookup.
  rewrite filter_filter.
  replace (existsb (in_group (fun r => (Den r, LocationBucket r)) k)
                   (filter is_transfer df_f))
    with (existsb (fun r => is_transfer r && key_eqb (Den r, LocationBucket r) k) df_f).
  - destruct (existsb _ df_f); reflexivity.
  - induction df_f as [|r l IH]; simpl; [reflexivity|].
    destruct (is_transfer r); simpl; now rewrite IH.
Qed.

(** C4.  Two runs on tables with the same columns whose rows agree in
    every required cell, except that rows flagged as transfers may differ in
    the quantity, under the same filters: either both fail alike or both
    give the same four tables, so no quantity of a transfer row reaches a
    sum of the day x user, day x user x item or day-totals table.  The
    transfer table holds, per day and location bucket, the number of
    transfer rows, not a quantity. *)
Theorem C4_transfer_quantity_excluded :
  forall (U : UCD) (C : Conv) (f : FilterSelection) (df1 df2 : DataFrame),
    columns df1 = columns df2 ->
    Forall2 transfer_quantity_change (raw_rows df1) (raw_rows df2) ->
    run f df1 = run f df2
    /\ (forall (df_f : list Row) (k : option date * str),
           lookup k (transfer_df df_f)
           = if existsb (fun r => is_transfer r
                                  && key_eqb (Den r, LocationBucket r) k) df_f
             then Some (List.length
                          (filter (fun r => is_transfer r
                                            && key_eqb (Den r, LocationBucket r) k)
                                  df_f))
             else None).
Proof.
  intros U C f df1 df2 Hc Hr. split; [|exact transfer_df_lookup].
  unfold run. rewrite !add_computed_columns_outcome.
  unfold ensure_columns. rewrite Hc, !date_column.
  assert (Ed : map Uzavrena_prace (raw_rows df1) = map Uzavrena_prace (raw_rows df2)).
  { apply Forall2_map_eq with (R := transfer_quantity_change); [|exact Hr].
    intros a b Hab. apply Hab. }
  rewrite Ed.
  destruct (filter _ required_cols); [|reflexivity]. simpl.
  destruct (existsb is_text _); [reflexivity|]. simpl.
  assert (Hrows : Forall2 same_for_tables
                    (apply_filters f (filter has_day (map enrich_row (raw_rows df1))))
                    (apply_filters f (filter has_day (map enrich_row (raw_rows df2))))).
  { unfold apply_filters. apply Forall2_filter; [apply filters_same|].
    apply Forall2_filter.
    - intros a b (Ea & _). unfold has_day. now rewrite Ea.
    - apply Forall2_map. eapply Forall2_impl; [|exact Hr].
      intros a b. apply enrich_row_same_for_tables. }
  unfold den_totals, den_user, sku_pivot.
  rewrite (merged_metrics_eq Hrows gcols), (merged_metrics_eq Hrows gcols_sku),
    (transfer_df_eq Hrows).
  reflexivity.
Qed.

(** The sample table with another quantity in its transfer row. *)
Definition df_sample_moved : DataFrame :=
  {| columns := required_cols;
     data :=
       [ [txt "Vložit"; txt "Nákup"; Num 5; txt "st"; Num 1; txt "u1"; txt "B"; txt "F-9-1-1"];
         [txt "Vydat"; NA; Num 10; txt "PAL"; Num (3 # 2); txt "u1"; txt "A"; txt "DOCK A"];
         [txt "Vložit"; txt "Výroba"; Num 2; txt "pal"; Num 1; txt "u1"; txt "A"; txt "x"];
         [txt "Vložit"; NA; Num 7; txt "ks"; Num 1; txt "u2"; txt "A"; txt "F-9-1-1"];
         [txt "Vložit"; txt "Nákup"; txt "abc"; txt "ST"; NA; txt "u1"; txt "B"; txt "F-9-1-1"];
         [txt "Vydat"; txt "Prodej"; txt "abc"; txt "ST"; Num 2; txt "u2"; txt "C"; txt "F-9-1-1"] ] |}.

Lemma C4_transfer_quantity_excluded_witness :
  columns df_sample = columns df_sample_moved
  /\ Forall2 (transfer_quantity_change (U := czech_ucd) (C := plain_conv))
             (raw_rows df_sample) (raw_rows df_sample_moved)
  /\ run (U := czech_ucd) (C := plain_conv) no_filter df_sample
     = run (U := czech_ucd) (C := plain_conv) no_filter df_sample_moved.
Proof.
  assert (H : Forall2 (transfer_quantity_change (U := czech_ucd) (C := plain_conv))
                      (raw_rows df_sample) (raw_rows df_sample_moved)).
  { unfold raw_rows. simpl map.
    repeat (constructor;
            [split; [repeat split|first [left; reflexivity|right; reflexivity]]|]).
    constructor. }
  split; [reflexivity|]. split; [exact H|].
  exact (proj1 (@C4_transfer_quantity_excluded czech_ucd plain_conv no_filter
                  df_sample df_sample_moved eq_refl H)).
Defined.

(* ------------------------------------------------------------------ *)
(** ** Top-N *)

(** Six inbound items of one day and user, with quantities 1 to 6. *)
Definition df_six_items : DataFrame :=
  {| columns := required_cols;
     data :=
       [ [txt "Vložit"; txt "Nákup"; Num 1; txt "ks"; Num 1; txt "u1"; txt "A"; txt "R1"];
         [txt "Vložit"; txt "Nákup"; Num 2; txt "ks"; Num 1; txt "u1"; txt "B"; txt "R1"];
         [txt "Vložit"; txt "Nákup"; Num 3; txt "ks"; Num 1; txt "u1"; txt "C"; txt "R1"];
         [txt "Vložit"; txt "Nákup"; Num 4; txt "ks"; Num 1; txt "u1"; txt "D"; txt "R1"];
         [txt "Vložit"; txt "Nákup"; Num 5; txt "ks"; Num 1; txt "u1"; txt "E"; txt "R1"];
         [txt "Vložit"; txt "Nákup"; Num 6; txt "ks"; Num 1; txt "u1"; txt "F"; txt "R1"] ] |}.

Definition six_items : list Row := rows_of (add_computed_columns_cz df_six_items).

(** Item and score of each returned row. *)
Definition items_and_scores (t : table (option date * str * str) scored)
  : list (str * Q) :=
  map (fun row => (snd (fst row), Soucet (snd row))) t.

(** C2.  The Top-N selection at six items of one day with scores 1 to 6
    and N = 5.  Narrowed to the day (or to the user), the rows come back in
    item order, A to E with scores 1 to 5, because the grouping after the
    sort orders by key again: the best item F is left out.  Without
    narrowing, and when the narrowed rows are sorted by score, the five
    highest come first, F to B. *)
Theorem C2_narrowed_top_n_in_key_order :
  items_and_scores (sku_top 5 (utf8 "1899-12-31") all_users six_items)
  = [(utf8 "A", 1); (utf8 "B", 2); (utf8 "C", 3); (utf8 "D", 4); (utf8 "E", 5)]
  /\ items_and_scores (sku_top 5 all_days (utf8 "u1") six_items)
     = [(utf8 "A", 1); (utf8 "B", 2); (utf8 "C", 3); (utf8 "D", 4); (utf8 "E", 5)]
  /\ items_and_scores (sku_top 5 all_days all_users six_items)
     = [(utf8 "F", 6); (utf8 "E", 5); (utf8 "D", 4); (utf8 "C", 3); (utf8 "B", 2)]
  /\ items_and_scores
       (firstn 5 (sort_values_desc score_of
                    (filter (mask_top (utf8 "1899-12-31") all_users)
                            (sku_scores six_items))))
     = [(utf8 "F", 6); (utf8 "E", 5); (utf8 "D", 4); (utf8 "C", 3); (utf8 "B", 2)].
Proof. repeat split; vm_compute; reflexivity. Qed.
